(** * claude-shell: the PowerShell enforcement wrapper, embedded and verified

    A shallow embedding of [claude-shell-wrapper.py].  Python [str] values are
    Rocq strings whose characters stand for the code points below 256; the
    character classes of [re] ([\w], [\s], [\b], case folding) are written out
    for that range as Python's Unicode mode defines them.  Timestamps of
    [time.time()] are rationals, in seconds.  The collaborators that are not
    code of the repository (the [bashlex] parser, the [wslpath] process,
    [shlex.split], [subprocess.list2cmdline], the PowerShell child) are
    Section variables. *)

From Stdlib Require Import String Ascii List Bool Arith ZArith QArith Lia Lqa.
From Stdlib Require Import DecimalString.
From Stdlib Require DecimalFacts DecimalNat.
Import ListNotations.
Open Scope list_scope.
Open Scope string_scope.
Open Scope nat_scope.

(** ** Python exceptions and fallible computations *)

(** The exception classes the wrapper raises or handles.  [KeyboardInterrupt]
    derives from [BaseException] only, so [except Exception] lets it pass;
    [OtherError] stands for any other subclass of [Exception]. *)
Inductive exn : Type :=
| ReError (msg : string)
| ValueError (msg : string)
| RuntimeError (msg : string)
| OtherError (msg : string)
| KeyboardInterrupt.

Definition is_Exception (e : exn) : bool :=
  match e with
  | KeyboardInterrupt => false
  | _ => true
  end.

(** [str(e)] *)
Definition str_exn (e : exn) : string :=
  match e with
  | ReError m | ValueError m | RuntimeError m | OtherError m => m
  | KeyboardInterrupt => ""
  end.

(** A call either returns a value or raises. *)
Inductive res (A : Type) : Type :=
| Ok (a : A)
| Raise (e : exn).
Arguments Ok {A} a.
Arguments Raise {A} e.

Definition bind {A B : Type} (m : res A) (k : A -> res B) : res B :=
  match m with
  | Ok a => k a
  | Raise e => Raise e
  end.

Declare Scope res_scope.
Delimit Scope res_scope with res.
Notation "x <- m ;; k" := (bind m (fun x => k))
  (at level 61, m at next level, right associativity) : res_scope.
Notation "m ;;; k" := (bind m (fun _ => k))
  (at level 61, right associativity) : res_scope.
Open Scope res_scope.

(** [logging.info(f"...")] and its siblings: the message is built before the
    call, so whatever the f-string's expressions raise is raised here; the
    record written to the log file is not observed by the other operations. *)
Definition logging (message : res string) : res unit :=
  _ <- message ;; Ok tt.

(** ** Characters *)

Module Chars.

Definition code (c : ascii) : nat := nat_of_ascii c.

Definition nul : ascii := ascii_of_nat 0.
Definition lf : ascii := ascii_of_nat 10.
Definition cr : ascii := ascii_of_nat 13.
Definition sub_char : ascii := ascii_of_nat 26.
Definition dquote : ascii := ascii_of_nat 34.
Definition backslash : ascii := ascii_of_nat 92.

Definition between (lo hi n : nat) : bool := (lo <=? n) && (n <=? hi).

(** [str.isspace], which is also [\s] on [str] patterns. *)
Definition is_space (c : ascii) : bool :=
  let n := code c in
  between 9 13 n || between 28 32 n || (n =? 133) || (n =? 160).

(** [\w] on [str] patterns: alphanumeric in Unicode, or the underscore. *)
Definition is_word (c : ascii) : bool :=
  let n := code c in
  between 48 57 n || between 65 90 n || between 97 122 n || (n =? 95)
  || (n =? 170) || (n =? 178) || (n =? 179) || (n =? 181) || (n =? 185)
  || (n =? 186) || between 188 190 n || between 192 214 n
  || between 216 246 n || between 248 255 n.

(** Lower case of an ASCII letter; every other character is left alone.  The
    literals of the program's patterns are ASCII, and below 256 an ASCII letter
    has no case variant besides its ASCII one. *)
Definition lower (c : ascii) : ascii :=
  let n := code c in
  if between 65 90 n then ascii_of_nat (n + 32) else c.

End Chars.

(** ** Strings *)

Module Str.

Definition nl : string := String Chars.lf "".

Fixpoint startswith (p s : string) : bool :=
  match p, s with
  | "", _ => true
  | String a p', String b s' => Ascii.eqb a b && startswith p' s'
  | String _ _, "" => false
  end.

(** [p in s] for strings *)
Fixpoint contains (p s : string) : bool :=
  startswith p s ||
  match s with
  | "" => false
  | String _ s' => contains p s'
  end.

(** [c in s] for one character *)
Fixpoint has_char (c : ascii) (s : string) : bool :=
  match s with
  | "" => false
  | String a s' => Ascii.eqb a c || has_char c s'
  end.

Fixpoint lower (s : string) : string :=
  match s with
  | "" => ""
  | String c s' => String (Chars.lower c) (lower s')
  end.

Fixpoint rev_onto (s acc : string) : string :=
  match s with
  | "" => acc
  | String c s' => rev_onto s' (String c acc)
  end.

Definition rev (s : string) : string := rev_onto s "".

Fixpoint lstrip (s : string) : string :=
  match s with
  | "" => ""
  | String c s' => if Chars.is_space c then lstrip s' else s
  end.

(** [s.strip()] *)
Definition strip (s : string) : string := rev (lstrip (rev (lstrip s))).

(** [sep.join(l)] *)
Fixpoint join (sep : string) (l : list string) : string :=
  match l with
  | [] => ""
  | [x] => x
  | x :: l' => x ++ sep ++ join sep l'
  end.

(** [s.split(sep)] for a one-character separator: the current field is
    collected in [cur]. *)
Fixpoint split_from (sep : ascii) (cur : string) (s : string) : list string :=
  match s with
  | "" => [rev cur]
  | String c s' =>
      if Ascii.eqb c sep then rev cur :: split_from sep "" s'
      else split_from sep (String c cur) s'
  end.

Definition split (sep : ascii) (s : string) : list string := split_from sep "" s.

(** [s.replace(a, b)] for single characters *)
Fixpoint replace_char (a b : ascii) (s : string) : string :=
  match s with
  | "" => ""
  | String c s' => String (if Ascii.eqb c a then b else c) (replace_char a b s')
  end.

(** The last character of [s], or [prev] when [s] is empty. *)
Fixpoint last_char (prev : option ascii) (s : string) : option ascii :=
  match s with
  | "" => prev
  | String c s' => last_char (Some c) s'
  end.

(** The decimal text of a natural number below 100 (group numbers,
    positions). *)
Definition digit (n : nat) : string := String (ascii_of_nat (48 + n)) "".
Definition dec (n : nat) : string :=
  if n <? 10 then digit n else digit (n / 10) ++ digit (n mod 10).

End Str.

(** ** Regular expressions: the part of Python's [re] the program uses *)

Module Re.

(** An item of a character set: a character, [\w] or [\s]. *)
Inductive item : Type :=
| Chr (c : ascii)
| Word
| Space.

(** What matches one character: [[...]], [[^...]] and [.]. *)
Inductive cls : Type :=
| OneOf (l : list item)
| NoneOf (l : list item)
| Dot.

(** [Repeat k lo hi] is the greedy [k{lo,hi}] ([hi = None]: no upper bound),
    so [k*] is [Repeat k 0 None] and [k+] is [Repeat k 1 None]; [Group n r] is
    the [n]-th capturing group; [Boundary] is [\b]. *)
Inductive re : Type :=
| Empty
| One (k : cls)
| Cat (r1 r2 : re)
| Alt (r1 r2 : re)
| Repeat (k : cls) (lo : nat) (hi : option nat)
| Group (n : nat) (r : re)
| Boundary.

(** A compiled pattern: the [re.IGNORECASE] flag (also written [(?i)]) and
    the expression. *)
Record pattern : Type := { ignorecase : bool; body : re }.

Definition item_matches (ic : bool) (i : item) (x : ascii) : bool :=
  match i with
  | Chr c =>
      if ic then Ascii.eqb (Chars.lower x) (Chars.lower c) else Ascii.eqb x c
  | Word => Chars.is_word x
  | Space => Chars.is_space x
  end.

Definition cls_matches (ic : bool) (k : cls) (x : ascii) : bool :=
  match k with
  | OneOf l => existsb (fun i => item_matches ic i x) l
  | NoneOf l => negb (existsb (fun i => item_matches ic i x) l)
  | Dot => negb (Ascii.eqb x Chars.lf)
  end.

(** The text of the groups that took part in a match, latest first. *)
Definition groups : Type := list (nat * string).

Fixpoint group (n : nat) (g : groups) : option string :=
  match g with
  | [] => None
  | (m, s) :: g' => if m =? n then Some s else group n g'
  end.

(** One way to match at a position: the text matched, the text left and the
    groups. *)
Definition result : Type := (string * string * groups)%type.

Definition bounded (hi : option nat) : bool :=
  match hi with
  | Some 0 => true
  | _ => false
  end.

(** The ways a greedy repetition can split [s], the longest first. *)
Fixpoint repeat_splits (ic : bool) (k : cls) (lo : nat) (hi : option nat)
    (s : string) : list (string * string) :=
  (match s with
   | String c s' =>
       if cls_matches ic k c && negb (bounded hi) then
         map (fun ms => (String c (fst ms), snd ms))
             (repeat_splits ic k (pred lo) (option_map pred hi) s')
       else []
   | "" => []
   end)
  ++ (if lo =? 0 then [("", s)] else []).

Definition word_before (prev : option ascii) : bool :=
  match prev with
  | Some c => Chars.is_word c
  | None => false
  end.

Definition word_after (s : string) : bool :=
  match s with
  | String c _ => Chars.is_word c
  | "" => false
  end.

(** Every way [r] matches at the start of [s], in the order the backtracking
    matcher tries them; [prev] is the character before the position. *)
Fixpoint run (ic : bool) (r : re) (prev : option ascii) (s : string)
    (g : groups) : list result :=
  match r with
  | Empty => [("", s, g)]
  | One k =>
      match s with
      | String c s' => if cls_matches ic k c then [(String c "", s', g)] else []
      | "" => []
      end
  | Cat r1 r2 =>
      flat_map
        (fun a : result =>
           let '(m1, s1, g1) := a in
           map (fun b : result => let '(m2, s2, g2) := b in (m1 ++ m2, s2, g2))
               (run ic r2 (Str.last_char prev m1) s1 g1))
        (run ic r1 prev s g)
  | Alt r1 r2 => run ic r1 prev s g ++ run ic r2 prev s g
  | Repeat k lo hi =>
      map (fun ms => (fst ms, snd ms, g)) (repeat_splits ic k lo hi s)
  | Group n r1 =>
      map (fun a : result => let '(m, s1, g1) := a in (m, s1, (n, m) :: g1))
          (run ic r1 prev s g)
  | Boundary =>
      if xorb (word_before prev) (word_after s) then [("", s, g)] else []
  end.

Definition run_pattern (p : pattern) (prev : option ascii) (s : string)
    : list result :=
  run (ignorecase p) (body p) prev s [].

(** The leftmost match from the current position on. *)
Fixpoint scan (p : pattern) (prev : option ascii) (s : string) : option result :=
  match run_pattern p prev s with
  | m :: _ => Some m
  | [] =>
      match s with
      | "" => None
      | String c s' => scan p (Some c) s'
      end
  end.

(** [p.search(s)] *)
Definition search (p : pattern) (s : string) : option result := scan p None s.

(** [bool(p.search(s))] *)
Definition found (p : pattern) (s : string) : bool :=
  match search p s with
  | Some _ => true
  | None => false
  end.

(** The literal text [t], character by character. *)
Fixpoint lit (t : string) : re :=
  match t with
  | "" => Empty
  | String c "" => One (OneOf [Chr c])
  | String c t' => Cat (One (OneOf [Chr c])) (lit t')
  end.

(** [r1|r2|...] *)
Fixpoint alts (l : list re) : re :=
  match l with
  | [] => Empty
  | [r] => r
  | r :: l' => Alt r (alts l')
  end.

(** [p.groups]: the number of capturing groups. *)
Fixpoint ngroups (r : re) : nat :=
  match r with
  | Cat r1 r2 | Alt r1 r2 => Nat.max (ngroups r1) (ngroups r2)
  | Group n r1 => Nat.max n (ngroups r1)
  | _ => 0
  end.

(** *** Replacement templates *)

(** A template is text and group references.  [Ref n pos] is [\n], with the
    position the error message reports for it. *)
Inductive titem : Type :=
| Text (c : ascii)
| Ref (n : nat) (pos : nat).

Definition group_digit (c : ascii) : option nat :=
  let n := Chars.code c in
  if Chars.between 49 57 n then Some (n - 48) else None.

(** The template compiler, for the escape the program writes (a backslash and
    a group number of one digit); every other character stands for itself. *)
Fixpoint parse_template (t : string) (pos : nat) : list titem :=
  match t with
  | "" => []
  | String c t' =>
      match t' with
      | String d t'' =>
          match (if Ascii.eqb c Chars.backslash then group_digit d else None) with
          | Some n => Ref n (pos + 1) :: parse_template t'' (pos + 2)
          | None => Text c :: parse_template t' (pos + 1)
          end
      | "" => [Text c]
      end
  end.

(** The first reference to a group the pattern does not have. *)
Fixpoint bad_ref (ngroups : nat) (t : list titem) : option (nat * nat) :=
  match t with
  | [] => None
  | Text _ :: t' => bad_ref ngroups t'
  | Ref n pos :: t' => if ngroups <? n then Some (n, pos) else bad_ref ngroups t'
  end.

(** [m.expand(template)]; a group that took no part gives the empty string. *)
Fixpoint expand (t : list titem) (g : groups) : string :=
  match t with
  | [] => ""
  | Text c :: t' => String c (expand t' g)
  | Ref n _ :: t' =>
      match group n g with
      | Some s => s
      | None => ""
      end ++ expand t' g
  end.

Definition nonempty (a : result) : bool :=
  match a with
  | ("", _, _) => false
  | _ => true
  end.

(** The match taken at a position: the first one, or, right after an empty
    match at the same position, the first that is not empty. *)
Definition first_match (must_advance : bool) (l : list result) : option result :=
  if must_advance then find nonempty l else hd_error l.

(** The loop of [re.sub]: replace the matches from left to right and copy what
    lies between them.  Every step takes a character or turns [must_advance]
    on, so [2 * length s + 2] steps are enough. *)
Fixpoint sub_from (fuel : nat) (p : pattern) (repl : groups -> string)
    (must_advance : bool) (prev : option ascii) (s : string) : string :=
  match fuel with
  | 0 => s
  | S fuel' =>
      match first_match must_advance (run_pattern p prev s) with
      | Some (m, rest, g) =>
          repl g ++
          (if nonempty (m, rest, g)
           then sub_from fuel' p repl false (Str.last_char prev m) rest
           else sub_from fuel' p repl true prev s)
      | None =>
          match s with
          | "" => ""
          | String c s' => String c (sub_from fuel' p repl false (Some c) s')
          end
      end
  end.

(** [re.sub(p, repl, s)] with a function for [repl] *)
Definition sub_with (p : pattern) (repl : groups -> string) (s : string) : string :=
  sub_from (2 * String.length s + 2) p repl false None s.

(** [re.sub(p, template, s)] with a string for [repl]: the template is
    compiled against the pattern before the search starts, and a reference to
    a group the pattern does not have is an error whatever [s] is. *)
Definition sub (p : pattern) (template : string) (s : string) : res string :=
  let t := parse_template template 0 in
  match bad_ref (ngroups (body p)) t with
  | Some (n, pos) =>
      Raise (ReError ("invalid group reference " ++ Str.dec n ++
                      " at position " ++ Str.dec pos))
  | None => Ok (sub_with p (expand t) s)
  end.

End Re.

(** ** Configuration *)

Import Re.
Open Scope char_scope.
Open Scope string_scope.
Open Scope nat_scope.

(** The names of the second alternative of [DENY_REGEX]. *)
Definition DENY_NAMES : list string :=
  ["bash"; "zsh"; "sh"; "awk"; "sed"; "grep"; "ls"; "cat"; "chmod"; "find";
   "rm"; "dd"; "su"; "sudo"; "passwd"].

(** The alternatives of the first group of [DENY_REGEX], in the order they
    are written: [[\r\n]], [;], [\|\|], [&&], [<\(], [<<], [[<>]{1,2}],
    [[`$]\(], [\{.*\}], [[*?]], [[^\\]"[^"]*[*?]], [\.\./]. *)
Definition DENY_OPERATORS : list re :=
  [ One (OneOf [Chr Chars.cr; Chr Chars.lf]);
    lit ";";
    lit "||";
    lit "&&";
    lit "<(";
    lit "<<";
    Repeat (OneOf [Chr "<"; Chr ">"]) 1 (Some 2);
    Cat (One (OneOf [Chr "`"; Chr "$"])) (lit "(");
    Cat (lit "{") (Cat (Repeat Dot 0 None) (lit "}"));
    One (OneOf [Chr "*"; Chr "?"]);
    Cat (One (NoneOf [Chr Chars.backslash]))
        (Cat (One (OneOf [Chr Chars.dquote]))
             (Cat (Repeat (NoneOf [Chr Chars.dquote]) 0 None)
                  (One (OneOf [Chr "*"; Chr "?"]))));
    lit "../" ].

(** [DENY_REGEX], compiled with [re.X | re.IGNORECASE]: the group of the
    operators, or [\b(bash|...|passwd)\b].  In verbose mode the line break and
    the blanks inside the pattern are no part of it. *)
Definition DENY_REGEX : pattern :=
  {| ignorecase := true;
     body :=
       Alt (Group 1 (alts DENY_OPERATORS))
           (Cat Boundary (Cat (Group 2 (alts (map lit DENY_NAMES))) Boundary)) |}.

(** [ENV_MAP]: a dictionary with six keys, read only through [get]. *)
Definition ENV_MAP : list (string * string) :=
  [ ("HOME", "USERPROFILE");
    ("USER", "USERNAME");
    ("PWD", "PWD");
    ("PATH", "PATH");
    ("TMPDIR", "TEMP");
    ("TMP", "TEMP") ].

(** [d.get(key, default)] *)
Fixpoint dict_get (d : list (string * string)) (key default : string) : string :=
  match d with
  | [] => default
  | (k, v) :: d' => if String.eqb k key then v else dict_get d' key default
  end.

(** Commands per minute. *)
Definition MAX_COMMAND_RATE : nat := 100.

(** ** Redaction *)

Definition credential_words : list string :=
  ["password"; "token"; "secret"; "api_key"; "auth"; "credential"].

(** The three patterns of [redact]:
    [(?i)(password|token|secret|api_key|auth|credential)[\s=:]+\S+],
    [(?i)-p\s+\S+] and [(?i)--password[\s=]\S+]. *)
Definition credential_pair : pattern :=
  {| ignorecase := true;
     body := Cat (Group 1 (alts (map lit credential_words)))
                 (Cat (Repeat (OneOf [Space; Chr "="; Chr ":"]) 1 None)
                      (Repeat (NoneOf [Space]) 1 None)) |}.

Definition short_flag : pattern :=
  {| ignorecase := true;
     body := Cat (lit "-p")
                 (Cat (Repeat (OneOf [Space]) 1 None)
                      (Repeat (NoneOf [Space]) 1 None)) |}.

Definition long_flag : pattern :=
  {| ignorecase := true;
     body := Cat (lit "--password")
                 (Cat (One (OneOf [Space; Chr "="]))
                      (Repeat (NoneOf [Space]) 1 None)) |}.

Definition redact_patterns : list pattern :=
  [credential_pair; short_flag; long_flag].

(** The loop [for pattern in patterns: result = re.sub(pattern, r'\1=***', result)]. *)
Fixpoint redact_loop (patterns : list pattern) (result : string) : res string :=
  match patterns with
  | [] => Ok result
  | pattern :: rest =>
      result' <- Re.sub pattern "\1=***" result ;;
      redact_loop rest result'
  end.

Definition redact (cmd : string) : res string :=
  redact_loop redact_patterns cmd.

(** ** Path and variable conversion *)

Definition validate_path (path : string) : bool :=
  if Str.contains ".." path || Str.startswith "//" path then false else true.

(** [\$(\w+)|\${(\w+)}] *)
Definition env_ref : pattern :=
  {| ignorecase := false;
     body := Alt (Cat (lit "$") (Group 1 (Repeat (OneOf [Word]) 1 None)))
                 (Cat (lit "${")
                      (Cat (Group 2 (Repeat (OneOf [Word]) 1 None)) (lit "}"))) |}.

(** [a or b] on what [m.group] returns: [None] and the empty string are
    false. *)
Definition py_or (a b : option string) : option string :=
  match a with
  | Some (String _ _) => a
  | _ => b
  end.

(** The inner function [repl] of [map_env_vars]; [str(None)] is ["None"]. *)
Definition repl (g : groups) : string :=
  match py_or (group 1 g) (group 2 g) with
  | Some key => "$env:" ++ dict_get ENV_MAP key key
  | None => "$env:None"
  end.

Definition map_env_vars (cmd : string) : string :=
  Re.sub_with env_ref repl cmd.

(** [tok.startswith("/mnt/") or (tok.startswith("/") and "/" in tok[1:])] *)
Definition path_shaped (tok : string) : bool :=
  Str.startswith "/mnt/" tok ||
  (Str.startswith "/" tok &&
   match tok with
   | String _ tail => Str.has_char "/" tail
   | "" => false
   end).

(** What the call [subprocess.check_output(["wslpath", "-w", p], ...,
    timeout=5)] does: it returns the text the tool wrote, or raises one of the
    three exceptions [to_windows_path] handles, or raises something else. *)
Inductive wslpath_result : Type :=
| Converted (output : string)
| CalledProcessError
| TimeoutExpired
| FileNotFoundError
| Failed (e : exn).

Section PathConversion.

Variable wslpath : string -> wslpath_result.

(** [r"\\?\{}".format(out.replace('/', '\\'))] *)
Definition long_path (out : string) : string :=
  "\\?\" ++ Str.replace_char "/" Chars.backslash out.

Definition to_windows_path (p : string) : res string :=
  if negb (validate_path p) then
    Raise (ValueError ("Invalid path detected: " ++ p))
  else
    match wslpath p with
    | Converted output =>
        let out := Str.strip output in
        Ok (if 240 <=? String.length out then long_path out else out)
    | CalledProcessError | TimeoutExpired | FileNotFoundError =>
        logging (Ok ("Path conversion failed for: " ++ p)) ;;;
        Ok p
    | Failed e => Raise e
    end.

(** The body of the loop of [translate_tokens] for one token; the handler
    logs a [ValueError] and raises it again. *)
Definition translate_token (tok : string) : res string :=
  match (if path_shaped tok then to_windows_path tok else Ok tok) with
  | Raise (ValueError m) =>
      logging (Ok ("Path validation failed: " ++ m)) ;;;
      Raise (ValueError m)
  | r => r
  end.

Fixpoint translate_loop (tokens converted : list string) : res (list string) :=
  match tokens with
  | [] => Ok converted
  | tok :: rest =>
      c <- translate_token tok ;;
      translate_loop rest (converted ++ [c])%list
  end.

Definition translate_tokens (tokens : list string) : res (list string) :=
  translate_loop tokens [].

End PathConversion.

(** ** Rate limiting *)

Definition Qgtb (x y : Q) : bool := negb (Qle_bool x y).

(** The loop that drops the entries at the head of [_command_times] that are
    more than a minute old. *)
Fixpoint prune (now : Q) (queue : list Q) : list Q :=
  match queue with
  | [] => []
  | t :: rest => if Qgtb (now - t) 60 then prune now rest else queue
  end.

(** [check_rate_limit], with the reading of the clock and the queue
    [_command_times] made explicit; the second component is the queue the
    call leaves behind. *)
Definition check_rate_limit (now : Q) (_command_times : list Q) : bool * list Q :=
  let queue := prune now _command_times in
  if MAX_COMMAND_RATE <=? List.length queue then (false, queue)
  else (true, (queue ++ [now])%list).

(** A run of calls at the given times, one after the other. *)
Fixpoint rate_calls (times : list Q) (queue : list Q) : list bool * list Q :=
  match times with
  | [] => ([], queue)
  | now :: later =>
      let (answer, queue') := check_rate_limit now queue in
      let (answers, final) := rate_calls later queue' in
      (answer :: answers, final)
  end.

(** ** Security validation *)

(** What [bashlex.parse] and the walk over its tree give for a command: the
    kinds of the nodes in the order they are visited, or
    [bashlex.errors.ParsingError]. *)
Inductive parsed : Type :=
| Nodes (kinds : list string)
| ParsingError (msg : string).

Definition blocked_kinds : list string :=
  ["pipeline"; "list"; "compound"; "function"; "for"; "while"; "if"].

Definition kind_blocked (kind : string) : bool :=
  existsb (String.eqb kind) blocked_kinds.

(** [DENY_REGEX.search(cmd)] as a truth value: the lexical pass. *)
Definition denied_by_regex (cmd : string) : bool := Re.found DENY_REGEX cmd.

(** [any(char in cmd for char in ['\0', '\x1a'])] *)
Definition has_control_bytes (cmd : string) : bool :=
  existsb (fun char => Str.has_char char cmd) [Chars.nul; Chars.sub_char].

Section Validation.

Variable bashlex : string -> parsed.

Definition risky (cmd : string) : res bool :=
  if denied_by_regex cmd then
    logging (r <- redact cmd ;; Ok ("Command blocked by regex: " ++ r)) ;;;
    Ok true
  else if has_control_bytes cmd then
    logging (r <- redact cmd ;;
             Ok ("Command blocked - null bytes detected: " ++ r)) ;;;
    Ok true
  else
    match bashlex cmd with
    | Nodes kinds =>
        if existsb kind_blocked kinds then
          logging (r <- redact cmd ;;
                   Ok ("Command blocked - complex syntax: " ++ r)) ;;;
          Ok true
        else Ok false
    | ParsingError e =>
        logging (r <- redact cmd ;;
                 Ok ("Command blocked - parse error: " ++ r ++ " - " ++ e)) ;;;
        Ok true
    end.

End Validation.

(** ** The persistent PowerShell session *)

(** A call on the child process returns, raises, or never returns. *)
Inductive outcome (A : Type) : Type :=
| Returns (a : A)
| Raises (e : exn)
| Hangs.
Arguments Returns {A} a.
Arguments Raises {A} e.
Arguments Hangs {A}.

Module PSRunner.

(** What one call of [readline()] on a pipe of the child does: it returns
    [text] after [wait] seconds (the empty string at end of file), it raises,
    or it blocks for ever because the child writes nothing and keeps the pipe
    open. *)
Inductive read : Type :=
| Reads (wait : Q) (text : string)
| Fails (e : exn)
| Silent.

(** What [stdin.write] followed by [stdin.flush] does. *)
Inductive written : Type :=
| Written
| BrokenPipeError
| WriteFails (e : exn).

(** The child process as [_execute_command] sees it; the [n]-th call of
    [readline] on a pipe is answered by the pipe's function at [n]. *)
Record process : Type := {
  available : bool;      (* self.proc and self.proc.poll() is None *)
  stdin_write : string -> written;
  stdout_readline : nat -> read;
  stderr_readline : nat -> read
}.

Definition quoted (s : string) : string :=
  String Chars.dquote s ++ String Chars.dquote "".

Definition full_cmd (cwd cmd : string) : string :=
  "Set-Location -LiteralPath " ++ quoted cwd ++ "; " ++
  "try { " ++ cmd ++ " } catch { Write-Error $_.Exception.Message; exit 1 }; " ++
  "Write-Host " ++ quoted "EXIT-CODE:$LASTEXITCODE".

(** [int(s)] on a stripped string: an optional sign, then decimal digits with
    single underscores allowed between them. *)
Fixpoint digits (acc : Z) (after_digit : bool) (s : string) : option Z :=
  match s with
  | "" => if after_digit then Some acc else None
  | String c s' =>
      let n := Chars.code c in
      if Chars.between 48 57 n then
        digits (10 * acc + Z.of_nat (n - 48)) true s'
      else if Ascii.eqb c "_" && after_digit then digits acc false s'
      else None
  end.

(** The limit of [int] on the number of digits of a decimal string
    ([sys.get_int_max_str_digits()], 4300 unless the interpreter is told
    otherwise): beyond it [int] raises [ValueError].  The sign and the
    underscores are not counted, leading zeros are. *)
Definition int_max_str_digits : nat := 4300.

Fixpoint digit_count (s : string) : nat :=
  match s with
  | "" => 0
  | String c s' =>
      (if Chars.between 48 57 (Chars.code c) then 1 else 0) + digit_count s'
  end.

Definition int (s : string) : option Z :=
  let text := Str.strip s in
  if int_max_str_digits <? digit_count text then None
  else
    match text with
    | String "-" s' => option_map Z.opp (digits 0 false s')
    | String "+" s' => digits 0 false s'
    | s' => digits 0 false s'
    end.

(** [int(line.split(":")[1].strip())], with 1 for [ValueError] and
    [IndexError]. *)
Definition sentinel_code (line : string) : Z :=
  match Str.split ":" line with
  | _ :: field :: _ =>
      match int (Str.strip field) with
      | Some n => n
      | None => 1
      end
  | _ => 1
  end.

(** How the read loop of [_execute_command] ends: [break] at the sentinel
    line, [break] in the handler of a failed read, or the loop's [else]
    branch once the deadline has passed. *)
Inductive loop_end : Type :=
| AtSentinel (exit_code : Z)
| AtReadError
| AtDeadline.

Definition Qltb (x y : Q) : bool := negb (Qle_bool y x).

(** The loop [while time.time() - start_time < timeout]: [elapsed] is
    [time.time() - start_time], [n] counts the calls of [readline] so far.
    [None] means the fuel of the model ran out. *)
Fixpoint read_loop (fuel : nat) (p : process) (timeout elapsed : Q) (n : nat)
    (stdout_lines : list string) : option (outcome (loop_end * list string)) :=
  match fuel with
  | 0 => None
  | S fuel' =>
      if Qltb elapsed timeout then
        match stdout_readline p n with
        | Reads wait "" =>
            (* time.sleep(0.1); continue *)
            read_loop fuel' p timeout (elapsed + wait + (1 # 10))%Q (S n) stdout_lines
        | Reads wait line =>
            if Str.startswith "EXIT-CODE:" line then
              Some (Returns (AtSentinel (sentinel_code line), stdout_lines))
            else
              read_loop fuel' p timeout (elapsed + wait)%Q (S n)
                        (stdout_lines ++ [line])%list
        | Fails e =>
            if is_Exception e then Some (Returns (AtReadError, stdout_lines))
            else Some (Raises e)
        | Silent => Some Hangs
        end
      else Some (Returns (AtDeadline, stdout_lines))
  end.

(** The loop that reads what is left on the error stream; its bare [except]
    stops at any exception. *)
Fixpoint drain_stderr (fuel : nat) (p : process) (n : nat)
    (stderr_lines : list string) : option (outcome (list string)) :=
  match fuel with
  | 0 => None
  | S fuel' =>
      match stderr_readline p n with
      | Reads _ "" => Some (Returns stderr_lines)
      | Reads _ line => drain_stderr fuel' p (S n) (stderr_lines ++ [line])%list
      | Fails _ => Some (Returns stderr_lines)
      | Silent => Some Hangs
      end
  end.

Definition seconds (timeout : nat) : Q := inject_Z (Z.of_nat timeout).

(** The exit code the loop leaves; [exit_code] starts at 0, and the [else]
    branch logs the redacted command before it sets 124. *)
Definition exit_code_after (how : loop_end) (cmd : string) (timeout : nat) : res Z :=
  match how with
  | AtSentinel exit_code => Ok exit_code
  | AtReadError => Ok 0%Z
  | AtDeadline =>
      logging (r <- redact cmd ;;
               Ok ("Command timeout after " ++
                   NilEmpty.string_of_uint (Nat.to_uint timeout) ++ "s: " ++ r)) ;;;
      Ok 124%Z
  end.

Definition _execute_command (fuel : nat) (p : process) (cwd cmd : string)
    (timeout : nat) : option (outcome (Z * string * string)) :=
  if negb (available p) then
    Some (Raises (RuntimeError "PowerShell process not available"))
  else
    match stdin_write p (full_cmd cwd cmd ++ Str.nl) with
    | BrokenPipeError => Some (Raises (RuntimeError "PowerShell stdin pipe broken"))
    | WriteFails e => Some (Raises e)
    | Written =>
        match read_loop fuel p (seconds timeout) 0%Q 0 [] with
        | None => None
        | Some Hangs => Some Hangs
        | Some (Raises e) => Some (Raises e)
        | Some (Returns (how, stdout_lines)) =>
            match exit_code_after how cmd timeout with
            | Raise e => Some (Raises e)
            | Ok exit_code =>
                match drain_stderr fuel p 0 [] with
                | None => None
                | Some Hangs => Some Hangs
                | Some (Raises e) => Some (Raises e)
                | Some (Returns stderr_lines) =>
                    Some (Returns (exit_code,
                                   Str.join "" stdout_lines,
                                   Str.join "" stderr_lines))
                end
            end
        end
    end.

(** *** [run]: admission, health check, execution and one retry *)

(** The operations [run] calls on the session. *)
Inductive call : Type :=
| CheckRateLimit
| HealthCheck
| ExecuteCommand (cmd : string)
| SyncWorkingDirectory
| StartProcess.

Section Run.

(** The state the operations share: the child process and its pipes, the
    clock, [_command_times], the cached working directory. *)
Variable session : Type.

Variable check_rate : session -> bool * session.
Variable health_check : session -> outcome bool * session.
Variable execute : string -> session -> outcome (Z * string * string) * session.
Variable sync_working_directory : session -> outcome unit * session.
Variable start_process : session -> outcome unit * session.

(** A computation over the session that also records, in order, the
    operations it called. *)
Definition world : Type := (session * list call)%type.
Definition act (A : Type) : Type := world -> outcome A * world.

Definition ret {A : Type} (a : A) : act A := fun w => (Returns a, w).

Definition and_then {A B : Type} (m : act A) (k : A -> act B) : act B :=
  fun w =>
    match m w with
    | (Returns a, w') => k a w'
    | (Raises e, w') => (Raises e, w')
    | (Hangs, w') => (Hangs, w')
    end.

(** [try: m except Exception as e: h e] *)
Definition except_Exception {A : Type} (m : act A) (h : exn -> act A) : act A :=
  fun w =>
    match m w with
    | (Raises e, w') => if is_Exception e then h e w' else (Raises e, w')
    | r => r
    end.

Definition perform {A : Type} (c : call) (op : session -> outcome A * session)
    : act A :=
  fun w => let (r, s') := op (fst w) in (r, (s', (snd w ++ [c])%list)).

Definition error_result (message : string) : Z * string * string :=
  (1%Z, "", message).

Definition run (cmd : string) : act (Z * string * string) :=
  and_then (perform CheckRateLimit
              (fun s => let (ok, s') := check_rate s in (Returns ok, s')))
    (fun admitted =>
  if negb admitted then
    ret (error_result ("ERROR: Command rate limit exceeded" ++ Str.nl))
  else
  and_then (perform HealthCheck health_check) (fun healthy =>
  if negb healthy then
    ret (error_result ("ERROR: PowerShell process unhealthy" ++ Str.nl))
  else
  except_Exception
    (and_then (perform (ExecuteCommand cmd) (execute cmd)) (fun result =>
     and_then (perform SyncWorkingDirectory sync_working_directory) (fun _ =>
     ret result)))
    (fun e =>
       (* Try to restart and retry once *)
       except_Exception
         (and_then (perform StartProcess start_process) (fun _ =>
          and_then (perform (ExecuteCommand cmd) (execute cmd)) (fun result =>
          ret result)))
         (fun retry_e =>
            ret (error_result ("ERROR: Command execution failed: " ++
                               str_exn e ++ Str.nl)))))).

End Run.

End PSRunner.

(** ** The rest of the session manager *)

(** [PROCESS_HEALTH_CHECK_INTERVAL], in seconds. *)
Definition PROCESS_HEALTH_CHECK_INTERVAL : Q := 30.

Module Supervision.

Import PSRunner.

(** The list [candidates] of [_locate_ps]. *)
Definition candidates : list string :=
  [ "pwsh";
    "powershell.exe";
    "/mnt/c/Windows/System32/WindowsPowerShell/v1.0/powershell.exe";
    "/mnt/c/Program Files/PowerShell/7/pwsh.exe" ].

Definition not_found : exn :=
  RuntimeError ("PowerShell executable not found. " ++
                "Install pwsh or ensure powershell.exe is accessible.").

Section Start.

(** [shutil.which(cand)] as a truth value. *)
Variable which : string -> bool.
(** [subprocess.Popen([exe, "-NoLogo", ...], ...)]: the child, or the
    exception of a failed spawn. *)
Variable popen : string -> res process.
(** [self.proc.terminate()] followed by [self.proc.wait(timeout=5)]. *)
Variable stop : process -> res unit.

(** The loop [for cand in candidates] of [_locate_ps]. *)
Fixpoint locate_loop (l : list string) : res string :=
  match l with
  | [] => Raise not_found
  | cand :: rest =>
      if which cand then
        logging (Ok ("Found PowerShell: " ++ cand)) ;;;
        Ok cand
      else locate_loop rest
  end.

Definition _locate_ps : res string := locate_loop candidates.

(** [_start_process], given [self.proc]; the second component is [self.proc]
    when the call ends.  The first line the new child writes is read with a
    blocking [readline]; what that read raises, and the [RuntimeError] for a
    line without the marker, are wrapped by the handler in a
    [RuntimeError].  The two [signal.signal] calls and the log line that
    follow the check change nothing of [self.proc]; they are left out. *)
Definition _start_process (proc : option process)
    : outcome unit * option process :=
  match (match proc with
         | Some old => if available old then stop old else Ok tt
         | None => Ok tt
         end) with
  | Raise e => (Raises e, proc)
  | Ok _ =>
      match _locate_ps with
      | Raise e => (Raises e, proc)
      | Ok exe =>
          match popen exe with
          | Raise e => (Raises e, proc)
          | Ok child =>
              match stdout_readline child 0 with
              | Reads _ ready_line =>
                  if Str.contains "PS-READY" ready_line then
                    (Returns tt, Some child)
                  else
                    (Raises (RuntimeError
                               ("PowerShell initialization error: " ++
                                "PowerShell startup failed: " ++ ready_line)),
                     Some child)
              | Fails e =>
                  if is_Exception e then
                    (Raises (RuntimeError
                               ("PowerShell initialization error: " ++
                                str_exn e)),
                     Some child)
                  else (Raises e, Some child)
              | Silent => (Hangs, Some child)
              end
          end
      end
  end.

End Start.

Section Checks.

Variable session : Type.
(** [self.proc and self.proc.poll() is None] *)
Variable alive : session -> bool.
Variable start_process : session -> outcome unit * session.
Variable execute : string -> session -> outcome (Z * string * string) * session.
(** [pathlib.Path(s).exists()] and [str(pathlib.Path(s))] *)
Variable path_exists : string -> bool.
Variable path_str : string -> string.

Definition health_probe : string := "Write-Host 'health-check'".

(** [self._last_health_check] when [_health_check] ends: it is set to [now]
    as soon as the interval has passed, before anything is probed. *)
Definition last_health_check_after (now last : Q) : Q :=
  if Qltb (now - last) PROCESS_HEALTH_CHECK_INTERVAL then last else now.

(** [_health_check], given the clock and [self._last_health_check]. *)
Definition _health_check (now last : Q) : act session bool :=
  if Qltb (now - last) PROCESS_HEALTH_CHECK_INTERVAL then ret session true
  else
    fun w =>
      if negb (alive (fst w)) then
        except_Exception session
          (and_then session (perform session StartProcess start_process)
             (fun _ => ret session true))
          (fun _ => ret session false) w
      else
        (* Test with simple command *)
        except_Exception session
          (and_then session
             (perform session (ExecuteCommand health_probe)
                (execute health_probe))
             (fun test_result =>
                let '(rc, out, _) := test_result in
                ret session ((rc =? 0)%Z && Str.contains "health-check" out)))
          (fun _ => ret session false) w.

Definition location_query : string :=
  "Get-Location | Select-Object -ExpandProperty Path".

(** [_sync_working_directory], given [self.cwd]; it returns [self.cwd] as
    the call leaves it. *)
Definition _sync_working_directory (cwd : string) : act session string :=
  except_Exception session
    (and_then session
       (perform session (ExecuteCommand location_query)
          (execute location_query))
       (fun pwd_result =>
          let '(rc, out, _) := pwd_result in
          if (rc =? 0)%Z then
            let ps_cwd := Str.strip out in
            if negb (String.eqb ps_cwd "") && path_exists ps_cwd then
              ret session (path_str ps_cwd)
            else ret session cwd
          else ret session cwd))
    (fun _ => ret session cwd).

End Checks.

Section Session.

Variable session : Type.
(** [check_rate_limit()], on the queue the session holds. *)
Variable check_rate : session -> bool * session.
Variable alive : session -> bool.
(** [_start_process] and [_execute_command], as the session sees them. *)
Variable start_process : session -> outcome unit * session.
Variable execute : string -> session -> outcome (Z * string * string) * session.
Variable path_exists : string -> bool.
Variable path_str : string -> string.

(** [run] with the methods of the class in their places: [_health_check]
    and [_sync_working_directory] are the ones above, and every call of
    [_start_process] and of [_execute_command], whoever makes it, is written
    on the record that the session carries.  [now] is the clock when the
    health check reads it, [last] is [_last_health_check] and [cwd] is
    [self.cwd] when [run] is called. *)
Definition run_in_session (now last : Q) (cwd cmd : string)
    : act (world session) (Z * string * string) :=
  run (world session)
    (fun w => let (ok, s') := check_rate (fst w) in (ok, (s', snd w)))
    (_health_check session alive start_process execute now last)
    (fun c => perform session (ExecuteCommand c) (execute c))
    (fun w =>
       match _sync_working_directory session execute path_exists path_str
               cwd w with
       | (Returns _, w') => (Returns tt, w')
       | (Raises e, w') => (Raises e, w')
       | (Hangs, w') => (Hangs, w')
       end)
    (perform session StartProcess start_process)
    cmd.

End Session.

End Supervision.

(** ** Main flow *)

(** What one invocation of the wrapper leaves behind: the exit status ([None]
    when the process never exits), what it wrote on its two streams, and the
    commands it handed to [runner.run]. *)
Record report : Type := {
  status : option Z;
  stdout : string;
  stderr : string;
  handed : list string
}.

(** [sys.stderr.write(message)] followed by [sys.exit(code)], before anything
    was handed to the session. *)
Definition exit_with (code : Z) (message : string) : report :=
  {| status := Some code; stdout := ""; stderr := message; handed := [] |}.

(** The cross mark that opens the wrapper's messages (U+274C, as the bytes of
    its UTF-8 encoding). *)
Definition cross_mark : string := "❌".

Section Main.

Variable bashlex : string -> parsed.
Variable wslpath : string -> wslpath_result.
(** [shlex.split(raw, posix=True)] *)
Variable shlex_split : string -> res (list string).
(** [subprocess.list2cmdline] *)
Variable list2cmdline : list string -> string.
(** The session: [main._runner.run], with the construction of the runner on
    first use. *)
Variable runner_run : string -> outcome (Z * string * string).

(** The block "Parse and convert": it computes [cmd] and [cmd_win]. *)
Definition parse_and_convert (raw : string) : res (string * string) :=
  tokens <- shlex_split raw ;;
  tokens <- translate_tokens wslpath tokens ;;
  let cmd := map_env_vars (Str.join " " tokens) in
  (* Re-quote for Windows PowerShell *)
  let cmd_win := list2cmdline tokens in
  Ok (cmd, cmd_win).

(** The block "Execute": [runner.run(cmd_win)], the output and the exit.  An
    [Exception] is reported by the block's own handler; an interrupt passes
    it and reaches the outer handler of [main], which exits with 130. *)
Definition execute (cmd_win : string) : report :=
  match runner_run cmd_win with
  | Returns (rc, out, err) =>
      {| status := Some rc; stdout := out; stderr := err;
         handed := [cmd_win] |}
  | Raises e =>
      if is_Exception e then
        {| status := Some 1%Z; stdout := "";
           stderr := cross_mark ++ " Execution error: " ++ str_exn e ++ Str.nl;
           handed := [cmd_win] |}
      else
        {| status := Some 130%Z; stdout := ""; stderr := "";
           handed := [cmd_win] |}
  | Hangs =>
      {| status := None; stdout := ""; stderr := ""; handed := [cmd_win] |}
  end.

(** The body of the outer [try] of [main] from the log line on: it ends in a
    [sys.exit], or raises into the outer handlers. *)
Definition main_body (raw : string) : res report :=
  logging (r <- redact raw ;; Ok ("CMD: " ++ r)) ;;;
  (* Security validation *)
  denied <- risky bashlex raw ;;
  if denied then
    Ok (exit_with 1 (cross_mark ++ " Command blocked by security policy." ++ Str.nl))
  else
    match parse_and_convert raw with
    | Raise e =>
        if is_Exception e then
          Ok (exit_with 1 (cross_mark ++ " Command parsing error: " ++
                           str_exn e ++ Str.nl))
        else Raise e
    | Ok (cmd, cmd_win) => Ok (execute cmd_win)
    end.

(** [main], given [sys.argv[1:]] and the line standard input holds. *)
Definition main (argv : list string) (stdin : string) : report :=
  let raw :=
    match argv with
    | [] => Str.strip stdin
    | _ => Str.join " " argv
    end in
  match raw with
  | "" => exit_with 0 ""
  | _ =>
      match main_body raw with
      | Ok r => r
      | Raise KeyboardInterrupt => exit_with 130 ""
      | Raise e =>
          exit_with 1 (cross_mark ++ " Unexpected error: " ++ str_exn e ++ Str.nl)
      end
  end.

End Main.

(** ** Notions used in the statements *)

(** [str(e)] of the [re.error] that [re.sub] raises for the template
    [\1=***] on a pattern without groups. *)
Definition invalid_group_reference : string :=
  "invalid group reference 1 at position 1".

(** A path has a [..] segment when one of the components between its slashes
    is [..]. *)
Definition has_dotdot_segment (path : string) : bool :=
  existsb (String.eqb "..") (Str.split "/" path).

(** The text around an occurrence leaves it word-bounded: no word character
    right before it and none right after it. *)
Definition word_bounded (pre post : string) : bool :=
  negb (Re.word_before (Str.last_char None pre)) && negb (Re.word_after post).

(** A call of the conversion tool that ends in one of the ways
    [to_windows_path] provides for. *)
Definition provided_for (r : wslpath_result) : bool :=
  match r with
  | Failed _ => false
  | _ => true
  end.

(** The control operators that the lexical pass matches wherever they
    stand. *)
Definition lexical_operators : list string :=
  [";"; "&&"; "||"; "$("; "*"; "?"; "../"].

(** The nodes [bashlex] gives for a simple command with a backtick
    substitution in an argument. *)
Definition backtick_nodes : list string :=
  ["command"; "word"; "word"; "commandsubstitution"; "command"; "word"].

(** A command with a backtick substitution and nothing else of note. *)
Definition echo_date : string := "echo `date`".

(** Stand-ins for the collaborators, for concrete runs: a parser that sees a
    simple command, a machine without [wslpath], and the words and the
    command line of [Write-Host $HOME]. *)
Definition bashlex_simple : string -> parsed :=
  fun _ => Nodes ["command"; "word"; "word"].

Definition wslpath_missing : string -> wslpath_result :=
  fun _ => FileNotFoundError.

Definition write_host_home : string := "Write-Host $HOME".

Definition split_write_host : string -> res (list string) :=
  fun _ => Ok ["Write-Host"; "$HOME"].

Definition join_write_host : list string -> string :=
  fun _ => write_host_home.

Definition runner_ok : string -> outcome (Z * string * string) :=
  fun _ => Returns (0%Z, "", "").

(** A conversion tool that answers every path with [C:\Projects\test] and a
    line break. *)
Definition wslpath_projects : string -> wslpath_result :=
  fun _ => Converted ("C:\Projects\test" ++ Str.nl).

(** What [translate_tokens] is to return for one token. *)
Definition translated (wslpath : string -> wslpath_result) (tok c : string)
    : Prop :=
  if path_shaped tok then
    match wslpath tok with
    | Converted output =>
        let out := Str.strip output in
        c = (if 240 <=? String.length out then long_path out else out)
    | _ => c = tok
    end
  else c = tok.

(** All the times of [times] lie in the minute that starts at [base]. *)
Definition within_a_minute (base : Q) (times : list Q) : Prop :=
  forall t, In t times -> (base <= t /\ t <= base + 60)%Q.

(** A hundred calls, one every half second from time 0 on. *)
Definition half_seconds : list Q :=
  map (fun n => (inject_Z (Z.of_nat n) * (1 # 2))%Q) (seq 0 100).

(** The child never writes a sentinel line. *)
Definition no_sentinel (p : PSRunner.process) : Prop :=
  forall n wait line,
    PSRunner.stdout_readline p n = PSRunner.Reads wait line ->
    Str.startswith "EXIT-CODE:" line = false.

(** A child that has closed its output: every [readline] returns the empty
    string at once. *)
Definition closed_child : PSRunner.process :=
  {| PSRunner.available := true;
     PSRunner.stdin_write := fun _ => PSRunner.Written;
     PSRunner.stdout_readline := fun _ => PSRunner.Reads 0 "";
     PSRunner.stderr_readline := fun _ => PSRunner.Reads 0 "" |}.

(** A child that runs the command and writes nothing. *)
Definition silent_child : PSRunner.process :=
  {| PSRunner.available := true;
     PSRunner.stdin_write := fun _ => PSRunner.Written;
     PSRunner.stdout_readline := fun _ => PSRunner.Silent;
     PSRunner.stderr_readline := fun _ => PSRunner.Silent |}.

(** A child whose output pipe fails on the first read. *)
Definition broken_child : PSRunner.process :=
  {| PSRunner.available := true;
     PSRunner.stdin_write := fun _ => PSRunner.Written;
     PSRunner.stdout_readline := fun _ => PSRunner.Fails (OtherError "read failed");
     PSRunner.stderr_readline := fun _ => PSRunner.Reads 0 "" |}.

(** A session whose every [_execute_command] finds the pipe broken; the
    state counts the executions. *)
Definition broken_pipe (cmd : string) (s : nat)
    : outcome (Z * string * string) * nat :=
  (Raises (RuntimeError "PowerShell stdin pipe broken"), S s).

(** An expression without [\b] does not look at the character before the
    position. *)
Fixpoint boundary_free (r : re) : bool :=
  match r with
  | Cat r1 r2 | Alt r1 r2 => boundary_free r1 && boundary_free r2
  | Group _ r1 => boundary_free r1
  | Boundary => false
  | _ => true
  end.

(** Every character of [s] is a word character. *)
Fixpoint all_word (s : string) : bool :=
  match s with
  | "" => true
  | String c s' => Chars.is_word c && all_word s'
  end.

(** A lower bound on the length of what an expression matches. *)
Fixpoint min_len (r : re) : nat :=
  match r with
  | One _ => 1
  | Cat r1 r2 => min_len r1 + min_len r2
  | Alt r1 r2 => Nat.min (min_len r1) (min_len r2)
  | Repeat _ lo _ => lo
  | Group _ r1 => min_len r1
  | Empty | Boundary => 0
  end.

(** The queue is in the order of the clock: no entry is later than one
    behind it. *)
Fixpoint ascending (queue : list Q) : Prop :=
  match queue with
  | [] => True
  | t :: rest => (forall u, In u rest -> (t <= u)%Q) /\ ascending rest
  end.



(** A token [translate_tokens] does not take for a path: it does not start
    with a slash, or it is a single name right under the root. *)
Definition not_converted (tok : string) : Prop :=
  Str.startswith "/" tok = false \/
  exists name, tok = "/" ++ name /\ Str.has_char "/" name = false.

(** Texts that no command may hold if the validator is to let it through:
    the line breaks, the separators and redirections, the openings of a
    substitution, the wildcards, the traversal step, and the two control
    bytes. *)
Definition forbidden_texts : list string :=
  [ String Chars.cr ""; String Chars.lf ""; ";"; "||"; "&&"; "<"; ">";
    "`("; "$("; "*"; "?"; "../";
    String Chars.nul ""; String Chars.sub_char "" ].

(** A pipe that delivers the lines of [script], each after its wait, then
    [last], and then stays silent. *)
Definition delivers (script : list (Q * string)) (last : PSRunner.read)
    (n : nat) : PSRunner.read :=
  nth n (map (fun wl => PSRunner.Reads (fst wl) (snd wl)) script ++ [last])%list
      PSRunner.Silent.

(** The time the lines of [script] take. *)
Fixpoint total_wait (script : list (Q * string)) : Q :=
  match script with
  | [] => 0
  | (wait, _) :: rest => wait + total_wait rest
  end.

(** A line of output that is not the end of file and not the sentinel,
    delivered after a wait that is not negative. *)
Definition output_line (wl : Q * string) : Prop :=
  (0 <= fst wl)%Q /\ snd wl <> "" /\
  Str.startswith "EXIT-CODE:" (snd wl) = false.

(** A child that answers [hello] and [world], takes forty seconds to write
    the sentinel line with code 3, and then closes its error stream. *)
Definition answering_child : PSRunner.process :=
  {| PSRunner.available := true;
     PSRunner.stdin_write := fun _ => PSRunner.Written;
     PSRunner.stdout_readline :=
       delivers [(1 # 2, "hello" ++ Str.nl); (1%Q, "world" ++ Str.nl)]
                (PSRunner.Reads 40 ("EXIT-CODE:3" ++ Str.nl));
     PSRunner.stderr_readline := delivers [] (PSRunner.Reads 0 "") |}.

(** A child that answers at once and keeps its error stream open. *)
Definition quiet_stderr_child : PSRunner.process :=
  {| PSRunner.available := true;
     PSRunner.stdin_write := fun _ => PSRunner.Written;
     PSRunner.stdout_readline :=
       delivers [] (PSRunner.Reads 0 ("EXIT-CODE:0" ++ Str.nl));
     PSRunner.stderr_readline := fun _ => PSRunner.Silent |}.

(** The decimal text of a natural number, as PowerShell writes an exit
    code. *)
Definition decimal (n : nat) : string :=
  NilEmpty.string_of_uint (Nat.to_uint n).

(** A session whose every command prints [health-check] and exits with 0. *)
Definition answers_health_check (cmd : string) (running : bool)
    : outcome (Z * string * string) * bool :=
  (Returns (0%Z, "health-check" ++ Str.nl, ""), running).

(** A text of decimal digits only, and the text of [n] nines. *)
Fixpoint all_digits (s : string) : bool :=
  match s with
  | "" => true
  | String c s' => Chars.between 48 57 (Chars.code c) && all_digits s'
  end.

Fixpoint nines (n : nat) : string :=
  match n with
  | 0 => ""
  | S n' => String "9" (nines n')
  end.

(** No character of [s] is a colon or white space. *)
Definition plain (s : string) : Prop :=
  forall c, Str.has_char c s = true ->
            Chars.is_space c = false /\ Ascii.eqb c ":" = false.

(** How many of the calls in [l] pass the test [f]. *)
Definition count_calls (f : PSRunner.call -> bool) (l : list PSRunner.call)
    : nat :=
  length (filter f l).

Definition is_execute (c : PSRunner.call) : bool :=
  match c with
  | PSRunner.ExecuteCommand _ => true
  | _ => false
  end.

Definition is_start (c : PSRunner.call) : bool :=
  match c with
  | PSRunner.StartProcess => true
  | _ => false
  end.

(** Stand-ins for concrete runs of the session manager: a machine where only
    [powershell.exe] resolves, a child whose first line is the ready marker,
    one whose first line is something else, and a session that is just the
    flag "the process is running". *)
Definition which_powershell_exe (cand : string) : bool :=
  String.eqb cand "powershell.exe".

Definition ready_child : PSRunner.process :=
  {| PSRunner.available := true;
     PSRunner.stdin_write := fun _ => PSRunner.Written;
     PSRunner.stdout_readline := fun _ => PSRunner.Reads 0 ("PS-READY" ++ Str.nl);
     PSRunner.stderr_readline := fun _ => PSRunner.Silent |}.

Definition dead_session_start (running : bool)
    : outcome unit * bool :=
  (Raises (RuntimeError "PowerShell initialization error: no marker"), running).

Definition probe_answers (cmd : string) (running : bool)
    : outcome (Z * string * string) * bool :=
  (Returns (0%Z, "C:\Users\dev" ++ Str.nl, ""), running).

(** A line of whitespace only, as [str.strip] sees it. *)
Fixpoint blank (s : string) : bool :=
  match s with
  | "" => true
  | String c s' => Chars.is_space c && blank s'
  end.

(** ** Redaction: the template against the patterns *)

Lemma sub_compiles :
  forall p template s,
    bad_ref (ngroups (body p)) (parse_template template 0) = None ->
    Re.sub p template s =
    Ok (sub_with p (expand (parse_template template 0)) s).
Proof.
  intros p template s H. unfold Re.sub. rewrite H. reflexivity.
Qed.

Lemma sub_rejects_template :
  forall p template s n pos,
    bad_ref (ngroups (body p)) (parse_template template 0) = Some (n, pos) ->
    Re.sub p template s =
    Raise (ReError ("invalid group reference " ++ Str.dec n ++
                    " at position " ++ Str.dec pos)).
Proof.
  intros p template s n pos H. unfold Re.sub. rewrite H. reflexivity.
Qed.

(** Only the first pattern of [redact] has a group, so the second call of
    [re.sub] rejects the template whatever the command is. *)
Lemma redact_raises :
  forall cmd, redact cmd = Raise (ReError invalid_group_reference).
Proof.
  intro cmd. unfold redact, redact_patterns.
  cbn [redact_loop].
  rewrite sub_compiles by reflexivity.
  cbn [bind].
  rewrite (sub_rejects_template _ _ _ 1 1) by reflexivity.
  reflexivity.
Qed.

Lemma logging_redact_raises :
  forall cmd (k : string -> string),
    logging (r <- redact cmd ;; Ok (k r)) = Raise (ReError invalid_group_reference).
Proof.
  intros cmd k. rewrite redact_raises. reflexivity.
Qed.

(** ** The matcher: where a match is found *)

Lemma scan_finds :
  forall p pre prev rest,
    run_pattern p (Str.last_char prev pre) rest <> [] ->
    scan p prev (pre ++ rest) <> None.
Proof.
  intros p pre. induction pre as [|c pre IH]; intros prev rest H.
  - simpl in *. destruct rest; simpl;
      destruct (run_pattern p prev _); congruence.
  - simpl. destruct (run_pattern p prev (String c (pre ++ rest))).
    + apply IH. exact H.
    + discriminate.
Qed.

Lemma found_at :
  forall p pre rest a,
    In a (run_pattern p (Str.last_char None pre) rest) ->
    found p (pre ++ rest) = true.
Proof.
  intros p pre rest a H. unfold found, search.
  destruct (scan p None (pre ++ rest)) eqn:E; [reflexivity|].
  exfalso. apply (scan_finds p pre None rest); [|exact E].
  intro Hnil. rewrite Hnil in H. exact H.
Qed.

Lemma run_cat :
  forall ic r1 r2 prev s g m1 s1 g1 m2 s2 g2,
    In (m1, s1, g1) (run ic r1 prev s g) ->
    In (m2, s2, g2) (run ic r2 (Str.last_char prev m1) s1 g1) ->
    In (m1 ++ m2, s2, g2) (run ic (Cat r1 r2) prev s g).
Proof.
  intros ic r1 r2 prev s g m1 s1 g1 m2 s2 g2 H1 H2.
  cbn [run]. apply in_flat_map. exists (m1, s1, g1). split; [exact H1|].
  cbn. apply in_map_iff. exists (m2, s2, g2). split; [reflexivity | exact H2].
Qed.

Lemma run_alt :
  forall ic r1 r2 prev s g a,
    In a (run ic r1 prev s g) \/ In a (run ic r2 prev s g) ->
    In a (run ic (Alt r1 r2) prev s g).
Proof.
  intros ic r1 r2 prev s g a H. cbn [run]. apply in_or_app. exact H.
Qed.

Lemma run_alts :
  forall ic l r prev s g a,
    In r l -> In a (run ic r prev s g) -> In a (run ic (alts l) prev s g).
Proof.
  intros ic l. induction l as [|r0 l IH]; intros r prev s g a Hr Ha.
  - destruct Hr.
  - destruct l as [|r1 l].
    + destruct Hr as [->|[]]. exact Ha.
    + change (alts (r0 :: r1 :: l)) with (Alt r0 (alts (r1 :: l))).
      cbn [run]. apply in_or_app. destruct Hr as [->|Hr].
      * left. exact Ha.
      * right. apply (IH r); assumption.
Qed.

Lemma run_group :
  forall ic n r prev s g m s1 g1,
    In (m, s1, g1) (run ic r prev s g) ->
    In (m, s1, (n, m) :: g1) (run ic (Group n r) prev s g).
Proof.
  intros ic n r prev s g m s1 g1 H. cbn [run].
  apply in_map_iff. exists (m, s1, g1). split; [reflexivity | exact H].
Qed.

(** A literal matches, without regard to case, any text whose lower case is
    the literal's. *)
Lemma run_lit_ignorecase :
  forall name w post prev g,
    Str.lower w = Str.lower name ->
    In (w, post, g) (run true (lit name) prev (w ++ post) g).
Proof.
  induction name as [|c name IH]; intros w post prev g H.
  - destruct w; [|discriminate]. left. reflexivity.
  - destruct w as [|x w]; [discriminate|].
    cbn [Str.lower] in H. injection H as Hc Hw.
    assert (Hone : run true (One (OneOf [Chr c])) prev (String x w ++ post) g
                   = [(String x "", w ++ post, g)]).
    { cbn [run append cls_matches existsb item_matches].
      rewrite Hc, Ascii.eqb_refl. reflexivity. }
    destruct name as [|d name].
    + destruct w; [|discriminate]. cbn [lit]. rewrite Hone. left. reflexivity.
    + change (lit (String c (String d name)))
        with (Cat (One (OneOf [Chr c])) (lit (String d name))).
      change (String x w) with (String x "" ++ w).
      apply run_cat with (s1 := w ++ post) (g1 := g).
      * change (String x "" ++ w) with (String x w).
        rewrite Hone. left. reflexivity.
      * apply IH. exact Hw.
Qed.

(** ** The lexical pass *)

Lemma is_word_lower :
  forall x, Chars.is_word (Chars.lower x) = Chars.is_word x.
Proof.
  intros [[] [] [] [] [] [] [] []]; reflexivity.
Qed.

Lemma word_after_lower :
  forall w post,
    w <> "" -> word_after (w ++ post) = word_after (Str.lower w).
Proof.
  intros [|x w] post H; [congruence|].
  cbn. symmetry. apply is_word_lower.
Qed.

Lemma last_char_lower :
  forall w prev,
    word_before (Str.last_char prev w) =
    word_before (Str.last_char (option_map Chars.lower prev) (Str.lower w)).
Proof.
  induction w as [|x w IH]; intro prev.
  - destruct prev; cbn; [symmetry; apply is_word_lower | reflexivity].
  - cbn [Str.last_char Str.lower]. rewrite (IH (Some x)). reflexivity.
Qed.

Lemma word_before_last_lower :
  forall w prev,
    w <> "" ->
    word_before (Str.last_char prev w) =
    word_before (Str.last_char None (Str.lower w)).
Proof.
  intros [|x w] prev H; [congruence|].
  cbn [Str.last_char Str.lower]. apply (last_char_lower w (Some x)).
Qed.

Lemma deny_names_shape :
  forall name,
    In name DENY_NAMES ->
    Str.lower name = name /\ name <> "" /\
    word_after name = true /\
    word_before (Str.last_char None name) = true.
Proof.
  intros name H. unfold DENY_NAMES in H. cbn [In] in H.
  repeat (destruct H as [<-|H];
          [repeat split; (reflexivity || discriminate)|]).
  destruct H.
Qed.

(** The second alternative of [DENY_REGEX] matches a denylisted name, in any
    mix of cases, wherever it stands between non-word characters. *)
Lemma denylisted_word_found :
  forall pre w post,
    In (Str.lower w) DENY_NAMES ->
    word_bounded pre post = true ->
    denied_by_regex (pre ++ w ++ post) = true.
Proof.
  intros pre w post Hname Hb.
  destruct (deny_names_shape _ Hname) as (Hlow & Hne & Hafter & Hbefore).
  assert (Hw : w <> "") by (intro; subst w; apply Hne; reflexivity).
  apply andb_true_iff in Hb. destruct Hb as [Hpre Hpost].
  apply negb_true_iff in Hpre. apply negb_true_iff in Hpost.
  unfold denied_by_regex. eapply found_at.
  unfold run_pattern. cbn [ignorecase body DENY_REGEX].
  apply run_alt. right.
  eapply run_cat.
  - cbn [run]. rewrite Hpre, (word_after_lower w post Hw), Hafter.
    left. reflexivity.
  - eapply run_cat.
    + apply run_group. eapply run_alts.
      * apply in_map. exact Hname.
      * apply run_lit_ignorecase. symmetry. exact Hlow.
    + cbn [run Str.last_char].
      rewrite (word_before_last_lower w _ Hw), Hbefore, Hpost.
      left. reflexivity.
Qed.

Lemma startswith_split :
  forall p s, Str.startswith p s = true -> exists post, s = p ++ post.
Proof.
  induction p as [|a p IH]; intros s H.
  - exists s. reflexivity.
  - destruct s as [|b s]; [discriminate|].
    cbn in H. apply andb_true_iff in H. destruct H as [Hab Hp].
    apply Ascii.eqb_eq in Hab. subst b.
    destruct (IH s Hp) as [post ->]. exists post. reflexivity.
Qed.

Lemma contains_split :
  forall p s,
    Str.contains p s = true -> exists pre post, s = pre ++ p ++ post.
Proof.
  intros p s. induction s as [|c s IH]; intro H.
  - cbn in H. rewrite orb_false_r in H.
    destruct (startswith_split _ _ H) as [post E].
    exists "", post. exact E.
  - cbn [Str.contains] in H. apply orb_true_iff in H. destruct H as [H|H].
    + destruct (startswith_split _ _ H) as [post E].
      exists "", post. exact E.
    + destruct (IH H) as (pre & post & ->).
      exists (String c pre), post. reflexivity.
Qed.

Lemma operator_found :
  forall r pre rest m s1 g1,
    In r DENY_OPERATORS ->
    In (m, s1, g1) (run true r (Str.last_char None pre) rest []) ->
    denied_by_regex (pre ++ rest) = true.
Proof.
  intros r pre rest m s1 g1 Hr Ha.
  unfold denied_by_regex. eapply found_at.
  unfold run_pattern. cbn [ignorecase body DENY_REGEX].
  apply run_alt. left. apply run_group.
  eapply run_alts; [exact Hr | exact Ha].
Qed.

(** The alternative of [DENY_REGEX] that matches each of the operators. *)
Ltac operator_alternative k :=
  intros; eapply (operator_found (nth k DENY_OPERATORS Empty));
  [ cbn; tauto | left; reflexivity ].

Lemma lexical_operator_found :
  forall op cmd,
    In op lexical_operators ->
    Str.contains op cmd = true ->
    denied_by_regex cmd = true.
Proof.
  intros op cmd Hop Hc.
  destruct (contains_split _ _ Hc) as (pre & post & ->).
  unfold lexical_operators in Hop. cbn [In] in Hop.
  destruct Hop as [<-|[<-|[<-|[<-|[<-|[<-|[<-|[]]]]]]]].
  - operator_alternative 1.
  - operator_alternative 3.
  - operator_alternative 2.
  - operator_alternative 7.
  - operator_alternative 9.
  - operator_alternative 9.
  - operator_alternative 11.
Qed.

(** ** The validator *)

Lemma risky_allows_or_raises :
  forall bashlex cmd,
    risky bashlex cmd = Ok false \/
    risky bashlex cmd = Raise (ReError invalid_group_reference).
Proof.
  intros bashlex cmd. unfold risky.
  destruct (denied_by_regex cmd).
  { right. rewrite logging_redact_raises. reflexivity. }
  destruct (has_control_bytes cmd).
  { right. rewrite logging_redact_raises. reflexivity. }
  destruct (bashlex cmd) as [kinds|e].
  - destruct (existsb kind_blocked kinds).
    + right. rewrite logging_redact_raises. reflexivity.
    + left. reflexivity.
  - right.
    rewrite (logging_redact_raises cmd
               (fun r => "Command blocked - parse error: " ++ r ++ " - " ++ e)).
    reflexivity.
Qed.

Lemma risky_regex_branch :
  forall bashlex cmd,
    denied_by_regex cmd = true ->
    risky bashlex cmd = Raise (ReError invalid_group_reference).
Proof.
  intros bashlex cmd H. unfold risky. rewrite H.
  rewrite logging_redact_raises. reflexivity.
Qed.

(** C1 (code defect).  The claim: a command that contains [;], [&&], [||], a
    pipe, a backtick or [$()] substitution, a glob wildcard or [../] makes
    [risky] return [True].  The code: the lexical pass does match [;], [&&],
    [||], [$(], [*], [?] and [../] wherever they stand, but every branch of
    [risky] that denies first builds its log message with [redact], which
    raises [re.error]; so [risky] returns [True] for no command at all, and
    raises on [cmd1; cmd2].  A lone backtick is not matched by the lexical
    pass either: the verdict on [echo `date`] is left to the structural pass,
    and with the nodes [bashlex] builds for it, none of a blocked kind,
    [risky] returns [False]. *)
Theorem risky_never_returns_deny :
  forall bashlex,
    (forall cmd,
        risky bashlex cmd = Ok false \/
        risky bashlex cmd = Raise (ReError invalid_group_reference)) /\
    (forall op cmd,
        In op lexical_operators -> Str.contains op cmd = true ->
        denied_by_regex cmd = true /\
        risky bashlex cmd = Raise (ReError invalid_group_reference)) /\
    risky bashlex "cmd1; cmd2" = Raise (ReError invalid_group_reference) /\
    denied_by_regex echo_date = false /\
    (bashlex echo_date = Nodes backtick_nodes ->
     risky bashlex echo_date = Ok false).
Proof.
  intro bashlex. split; [|split; [|split; [|split]]].
  - apply risky_allows_or_raises.
  - intros op cmd Hop Hc.
    pose proof (lexical_operator_found op cmd Hop Hc) as Hd.
    split; [exact Hd | apply risky_regex_branch; exact Hd].
  - apply risky_regex_branch. reflexivity.
  - reflexivity.
  - intro Hparse. unfold risky.
    replace (denied_by_regex echo_date) with false by reflexivity.
    replace (has_control_bytes echo_date) with false by reflexivity.
    rewrite Hparse. reflexivity.
Qed.

(** C3 (code defect).  The claim: [redact] returns the command with the
    value of a credential pair replaced by a placeholder.  The code: the
    template [\1=***] is used with all three patterns, and the second and the
    third have no group 1, so the second [re.sub] raises [re.error] before it
    looks at the text: [redact] returns for no command.  The first pattern
    alone does replace the value. *)
Theorem redact_raises_on_every_command :
  (forall cmd, redact cmd = Raise (ReError invalid_group_reference)) /\
  redact "login password=hunter2" = Raise (ReError invalid_group_reference) /\
  Re.sub credential_pair "\1=***" "login password=hunter2"
  = Ok "login password=***" /\
  (forall s, exists e, Re.sub short_flag "\1=***" s = Raise e).
Proof.
  split; [|split; [|split]].
  - intro cmd. unfold redact, redact_patterns. cbn [redact_loop].
    rewrite sub_compiles by reflexivity. cbn [bind].
    rewrite (sub_rejects_template _ _ _ 1 1) by reflexivity. reflexivity.
  - apply redact_raises.
  - vm_compute. reflexivity.
  - intro s. eexists. apply (sub_rejects_template _ _ _ 1 1). reflexivity.
Qed.

(** C10 (code defect).  The claim: a denylisted name is matched, in any
    mix of cases, at every word-bounded position, and a command that holds
    one, like [Get-Content ls.txt], is denied.  The code: the second
    alternative of [DENY_REGEX] is indeed found wherever such a name stands
    between non-word characters, not only in the place of the command name,
    and [risky] takes its first branch; but that branch builds its log
    message with [redact], which raises (see C3).  So [risky] raises
    [re.error] for such a command instead of returning [True]. *)
Theorem denylisted_word_raises_instead_of_denying :
  forall bashlex pre w post,
    In (Str.lower w) DENY_NAMES ->
    word_bounded pre post = true ->
    denied_by_regex (pre ++ w ++ post) = true /\
    risky bashlex (pre ++ w ++ post)
    = Raise (ReError invalid_group_reference) /\
    risky bashlex (pre ++ w ++ post) <> Ok true.
Proof.
  intros bashlex pre w post Hname Hb.
  pose proof (denylisted_word_found pre w post Hname Hb) as Hd.
  split; [exact Hd|].
  rewrite (risky_regex_branch bashlex _ Hd). split; [reflexivity|discriminate].
Qed.

Lemma denylisted_word_raises_in_an_argument :
  denied_by_regex ("Get-Content " ++ "LS" ++ ".txt") = true /\
  risky bashlex_simple ("Get-Content " ++ "LS" ++ ".txt")
  = Raise (ReError invalid_group_reference) /\
  risky bashlex_simple ("Get-Content " ++ "LS" ++ ".txt") <> Ok true.
Proof.
  apply (denylisted_word_raises_instead_of_denying
           bashlex_simple "Get-Content " "LS" ".txt").
  - cbn. tauto.
  - reflexivity.
Defined.

(** ** The main flow *)

Section MainFacts.

Variable bashlex : string -> parsed.
Variable wslpath : string -> wslpath_result.
Variable shlex_split : string -> res (list string).
Variable list2cmdline : list string -> string.
Variable runner_run : string -> outcome (Z * string * string).

Lemma main_body_raises :
  forall raw,
    main_body bashlex wslpath shlex_split list2cmdline runner_run raw
    = Raise (ReError invalid_group_reference).
Proof.
  intro raw. unfold main_body.
  rewrite logging_redact_raises. reflexivity.
Qed.

(** Whatever the command, [main] stops at the log line that precedes the
    validation. *)
Lemma main_stops_at_the_log_line :
  forall argv stdin c raw,
    match argv with
    | [] => Str.strip stdin
    | _ => Str.join " " argv
    end = String c raw ->
    main bashlex wslpath shlex_split list2cmdline runner_run argv stdin
    = exit_with 1 (cross_mark ++ " Unexpected error: " ++
                   invalid_group_reference ++ Str.nl).
Proof.
  intros argv stdin c raw H. unfold main. rewrite H.
  rewrite main_body_raises. reflexivity.
Qed.

(** The mapped string is computed and dropped: [cmd_win] comes from the
    tokens as [translate_tokens] left them. *)
Lemma parse_and_convert_drops_cmd :
  forall raw cmd cmd_win,
    parse_and_convert wslpath shlex_split list2cmdline raw = Ok (cmd, cmd_win) ->
    exists words tokens,
      shlex_split raw = Ok words /\
      translate_tokens wslpath words = Ok tokens /\
      cmd = map_env_vars (Str.join " " tokens) /\
      cmd_win = list2cmdline tokens.
Proof.
  intros raw cmd cmd_win. unfold parse_and_convert.
  destruct (shlex_split raw) as [words|e] eqn:Hsplit; [|discriminate].
  cbn [bind].
  destruct (translate_tokens wslpath words) as [tokens|e] eqn:Htokens;
    [|discriminate].
  cbn [bind]. intro H. injection H as <- <-.
  exists words, tokens. repeat split; assumption.
Qed.

Lemma execute_hands_cmd_win :
  forall cmd_win, handed (execute runner_run cmd_win) = [cmd_win].
Proof.
  intro cmd_win. unfold execute.
  destruct (runner_run cmd_win) as [[[rc out] err]|e|];
    [| destruct (is_Exception e) |]; reflexivity.
Qed.

End MainFacts.

(** C8 (code defect).  The claim: on [rm -rf /] the wrapper denies, exits
    with 1 and writes the policy-blocked message.  The code: nothing reaches
    the session and the exit status is 1, but [main] never gets to the
    validation: its log line [CMD: ...] calls [redact], which raises (see
    C3), and the outer handler writes the unexpected-error message instead of
    the policy-blocked one.  The lexical pass would have matched [rm]. *)
Theorem main_rm_rf_reports_unexpected_error :
  forall bashlex wslpath shlex_split list2cmdline runner_run,
    main bashlex wslpath shlex_split list2cmdline runner_run [] "rm -rf /"
    = {| status := Some 1%Z;
         stdout := "";
         stderr := cross_mark ++ " Unexpected error: " ++
                   invalid_group_reference ++ Str.nl;
         handed := [] |} /\
    Str.contains "blocked by security policy"
      (stderr (main bashlex wslpath shlex_split list2cmdline runner_run
                    [] "rm -rf /")) = false /\
    denied_by_regex "rm -rf /" = true.
Proof.
  intros bashlex wslpath shlex_split list2cmdline runner_run.
  assert (E : main bashlex wslpath shlex_split list2cmdline runner_run
                   [] "rm -rf /"
              = exit_with 1 (cross_mark ++ " Unexpected error: " ++
                             invalid_group_reference ++ Str.nl)).
  { apply (main_stops_at_the_log_line _ _ _ _ _ [] "rm -rf /" "r" "m -rf /").
    reflexivity. }
  split; [exact E|]. split.
  - rewrite E. reflexivity.
  - reflexivity.
Qed.

(** C2 (code defect).  The claim: for an allowed input with [$HOME], the
    command handed to the session holds [$env:USERPROFILE] and not [HOME].
    The code: [Write-Host $HOME] passes the validator when [bashlex] sees a
    simple command, and the block "Parse and convert" does compute the mapped
    string [cmd]; but what [main] passes to [runner.run] is [cmd_win], built
    by [list2cmdline] from the tokens that were never mapped.  And before
    that block is reached the log line has already raised (see C3), so
    nothing is handed to the session at all. *)
Theorem main_hands_the_unmapped_command :
  forall bashlex wslpath shlex_split list2cmdline runner_run,
    bashlex write_host_home = Nodes ["command"; "word"; "word"] ->
    shlex_split write_host_home = Ok ["Write-Host"; "$HOME"] ->
    list2cmdline ["Write-Host"; "$HOME"] = write_host_home ->
    risky bashlex write_host_home = Ok false /\
    parse_and_convert wslpath shlex_split list2cmdline write_host_home
    = Ok ("Write-Host $env:USERPROFILE", "Write-Host $HOME") /\
    handed (execute runner_run "Write-Host $HOME") = ["Write-Host $HOME"] /\
    handed (main bashlex wslpath shlex_split list2cmdline runner_run
                 [] write_host_home) = [].
Proof.
  intros bashlex wslpath shlex_split list2cmdline runner_run
         Hparse Hsplit Hjoin.
  split; [|split; [|split]].
  - unfold risky.
    replace (denied_by_regex write_host_home) with false by reflexivity.
    replace (has_control_bytes write_host_home) with false by reflexivity.
    rewrite Hparse. reflexivity.
  - unfold parse_and_convert. rewrite Hsplit. cbn [bind].
    replace (translate_tokens wslpath ["Write-Host"; "$HOME"])
      with (Ok (A := list string) ["Write-Host"; "$HOME"])
      by reflexivity.
    cbn [bind]. rewrite Hjoin. reflexivity.
  - apply execute_hands_cmd_win.
  - rewrite (main_stops_at_the_log_line _ _ _ _ _ [] write_host_home
               "W" "rite-Host $HOME") by reflexivity.
    reflexivity.
Qed.

Lemma main_hands_the_unmapped_command_witness :
  risky bashlex_simple write_host_home = Ok false /\
  parse_and_convert wslpath_missing split_write_host join_write_host
    write_host_home
  = Ok ("Write-Host $env:USERPROFILE", "Write-Host $HOME") /\
  handed (execute runner_ok "Write-Host $HOME") = ["Write-Host $HOME"] /\
  handed (main bashlex_simple wslpath_missing split_write_host
               join_write_host runner_ok [] write_host_home) = [].
Proof.
  apply (main_hands_the_unmapped_command
           bashlex_simple wslpath_missing split_write_host join_write_host
           runner_ok); reflexivity.
Defined.

(** ** Path translation *)

Lemma validate_path_spec :
  forall path,
    validate_path path =
    negb (Str.contains ".." path) && negb (Str.startswith "//" path).
Proof.
  intro path. unfold validate_path.
  destruct (Str.contains ".." path), (Str.startswith "//" path); reflexivity.
Qed.

Lemma translate_token_invalid :
  forall wslpath tok,
    path_shaped tok = true ->
    validate_path tok = false ->
    translate_token wslpath tok
    = Raise (ValueError ("Invalid path detected: " ++ tok)).
Proof.
  intros wslpath tok Hshape Hbad.
  unfold translate_token, to_windows_path. rewrite Hshape, Hbad. reflexivity.
Qed.

Lemma translate_token_plain :
  forall wslpath tok,
    path_shaped tok = false -> translate_token wslpath tok = Ok tok.
Proof.
  intros wslpath tok H. unfold translate_token. rewrite H. reflexivity.
Qed.

Lemma translate_token_valid :
  forall wslpath tok,
    path_shaped tok = true ->
    validate_path tok = true ->
    provided_for (wslpath tok) = true ->
    exists c, translate_token wslpath tok = Ok c /\ translated wslpath tok c.
Proof.
  intros wslpath tok Hshape Hok Hw.
  unfold translate_token, to_windows_path, translated.
  rewrite Hshape, Hok. cbn [negb].
  destruct (wslpath tok); try discriminate Hw;
    eexists; (split; [reflexivity|]); reflexivity.
Qed.

(** The loop stops at the first token that raises. *)
Lemma translate_loop_raises :
  forall wslpath tokens converted t,
    In t tokens ->
    path_shaped t = true ->
    validate_path t = false ->
    exists e, translate_loop wslpath tokens converted = Raise e.
Proof.
  intros wslpath tokens. induction tokens as [|tok rest IH];
    intros converted t Hin Hshape Hbad.
  - destruct Hin.
  - cbn [translate_loop].
    destruct (translate_token wslpath tok) as [c|e] eqn:E.
    + cbn [bind]. destruct Hin as [->|Hin].
      * rewrite (translate_token_invalid _ _ Hshape Hbad) in E. discriminate.
      * apply (IH _ t Hin Hshape Hbad).
    + exists e. reflexivity.
Qed.

Lemma translate_loop_returns :
  forall wslpath tokens converted,
    (forall t, In t tokens -> path_shaped t = true ->
               validate_path t = true /\ provided_for (wslpath t) = true) ->
    exists cs,
      translate_loop wslpath tokens converted = Ok (converted ++ cs)%list /\
      Forall2 (translated wslpath) tokens cs.
Proof.
  intros wslpath tokens. induction tokens as [|tok rest IH];
    intros converted H.
  - exists []. rewrite app_nil_r. split; [reflexivity | constructor].
  - assert (Htok : exists c, translate_token wslpath tok = Ok c /\
                             translated wslpath tok c).
    { destruct (path_shaped tok) eqn:Hshape.
      - destruct (H tok (or_introl eq_refl) Hshape) as [Hv Hw].
        apply translate_token_valid; assumption.
      - exists tok. split; [apply translate_token_plain; exact Hshape|].
        unfold translated. rewrite Hshape. reflexivity. }
    destruct Htok as (c & Ec & Hc).
    destruct (IH (converted ++ [c])%list) as (cs & Ecs & Hcs).
    { intros t Hin. apply H. right. exact Hin. }
    exists (c :: cs). cbn [translate_loop]. rewrite Ec. cbn [bind].
    rewrite Ecs, <- app_assoc. split; [reflexivity|].
    constructor; assumption.
Qed.

(** *** Segments and substrings *)

Lemma append_assoc :
  forall a b c : string, (a ++ b) ++ c = a ++ b ++ c.
Proof.
  induction a as [|x a IH]; intros b c; [reflexivity|].
  cbn. rewrite IH. reflexivity.
Qed.

Lemma append_empty_r : forall s : string, s ++ "" = s.
Proof.
  induction s as [|c s IH]; [reflexivity|]. cbn. rewrite IH. reflexivity.
Qed.

Lemma rev_onto_app :
  forall s acc, Str.rev_onto s acc = Str.rev_onto s "" ++ acc.
Proof.
  induction s as [|c s IH]; intro acc.
  - reflexivity.
  - cbn [Str.rev_onto]. rewrite (IH (String c acc)), (IH (String c "")).
    rewrite append_assoc. reflexivity.
Qed.

Lemma rev_cons :
  forall c s, Str.rev (String c s) = Str.rev s ++ String c "".
Proof.
  intros c s. unfold Str.rev. cbn [Str.rev_onto]. apply rev_onto_app.
Qed.

Lemma startswith_append :
  forall p post, Str.startswith p (p ++ post) = true.
Proof.
  induction p as [|a p IH]; intro post.
  - reflexivity.
  - cbn. rewrite Ascii.eqb_refl. apply IH.
Qed.

Lemma contains_occurrence :
  forall p pre post, Str.contains p (pre ++ p ++ post) = true.
Proof.
  intros p pre post. induction pre as [|c pre IH].
  - cbn [append]. destruct (p ++ post) eqn:E; cbn [Str.contains];
      rewrite <- E, startswith_append; reflexivity.
  - cbn [append Str.contains]. rewrite IH. apply orb_true_r.
Qed.

(** Every field of a split is a piece of the text that was split. *)
Lemma split_from_occurs :
  forall sep s cur f,
    In f (Str.split_from sep cur s) ->
    exists pre post, Str.rev cur ++ s = pre ++ f ++ post.
Proof.
  intros sep s. induction s as [|c s IH]; intros cur f H.
  - cbn in H. destruct H as [<-|[]]. exists "", "".
    cbn [append]. rewrite append_empty_r. reflexivity.
  - cbn [Str.split_from] in H. destruct (Ascii.eqb c sep).
    + destruct H as [<-|H].
      * exists "", (String c s). reflexivity.
      * destruct (IH "" f H) as (pre & post & E).
        cbn in E. exists (Str.rev cur ++ String c pre), post.
        rewrite E. rewrite append_assoc. reflexivity.
    + destruct (IH (String c cur) f H) as (pre & post & E).
      exists pre, post. rewrite <- E, rev_cons.
      rewrite append_assoc. reflexivity.
Qed.

Lemma segment_is_substring :
  forall path,
    has_dotdot_segment path = true -> Str.contains ".." path = true.
Proof.
  intros path H. unfold has_dotdot_segment in H.
  apply existsb_exists in H. destruct H as (f & Hin & Hf).
  apply String.eqb_eq in Hf. subst f.
  destruct (split_from_occurs _ _ _ _ Hin) as (pre & post & E).
  cbn in E. rewrite E. exact (contains_occurrence ".." pre post).
Qed.

(** C9.  [validate_path] answers [False] for every string in which two dots
    stand side by side, and so [translate_tokens] raises as soon as a
    path-shaped token holds them, wherever it is in the list.  This rejects
    every path with a [..] segment and more: [a..b] and [/mnt/c/file..txt]
    have no such segment and are rejected all the same. *)
Theorem validate_path_rejects_any_dotdot :
  forall wslpath path,
    Str.contains ".." path = true ->
    validate_path path = false /\
    (path_shaped path = true ->
     forall before after,
     exists e,
       translate_tokens wslpath (before ++ path :: after)%list = Raise e) /\
    (forall p, has_dotdot_segment p = true -> validate_path p = false) /\
    has_dotdot_segment "a..b" = false /\
    validate_path "a..b" = false /\
    has_dotdot_segment "/mnt/c/file..txt" = false /\
    translate_tokens wslpath ["/mnt/c/file..txt"]
    = Raise (ValueError "Invalid path detected: /mnt/c/file..txt").
Proof.
  intros wslpath path H.
  assert (Hbad : validate_path path = false).
  { rewrite validate_path_spec, H. reflexivity. }
  split; [exact Hbad|]. split; [|split].
  - intros Hshape before after. unfold translate_tokens.
    apply (translate_loop_raises wslpath _ [] path).
    + apply in_or_app. right. left. reflexivity.
    + exact Hshape.
    + exact Hbad.
  - intros p Hp. rewrite validate_path_spec.
    rewrite (segment_is_substring p Hp). reflexivity.
  - repeat split; reflexivity.
Qed.

Lemma validate_path_rejects_file_dotdot_txt :
  Str.contains ".." "/mnt/c/file..txt" = true /\
  validate_path "/mnt/c/file..txt" = false /\
  (path_shaped "/mnt/c/file..txt" = true ->
   forall before after,
   exists e,
     translate_tokens wslpath_missing
       (before ++ "/mnt/c/file..txt" :: after)%list = Raise e) /\
  (forall p, has_dotdot_segment p = true -> validate_path p = false) /\
  has_dotdot_segment "a..b" = false /\
  validate_path "a..b" = false /\
  has_dotdot_segment "/mnt/c/file..txt" = false /\
  translate_tokens wslpath_missing ["/mnt/c/file..txt"]
  = Raise (ValueError "Invalid path detected: /mnt/c/file..txt").
Proof.
  split; [reflexivity|].
  apply (validate_path_rejects_any_dotdot wslpath_missing "/mnt/c/file..txt").
  reflexivity.
Defined.

(** C4, as stated, fails: a token that starts with two slashes has no [..]
    segment, is path-shaped, and makes [translate_tokens] raise whatever the
    conversion tool does; so does a token with two dots inside a name. *)
Lemma translate_tokens_raises_without_dotdot_segment :
  has_dotdot_segment "//server/share" = false /\
  path_shaped "//server/share" = true /\
  (forall wslpath,
      translate_tokens wslpath ["//server/share"]
      = Raise (ValueError "Invalid path detected: //server/share")) /\
  has_dotdot_segment "/srv/a..b" = false /\
  (forall wslpath,
      translate_tokens wslpath ["echo"; "/srv/a..b"]
      = Raise (ValueError "Invalid path detected: /srv/a..b")).
Proof.
  repeat split; reflexivity.
Qed.

(** C4, amended.  When no path-shaped token holds two dots side by side or
    starts with two slashes, and the conversion tool either answers or fails
    in one of the three ways [to_windows_path] handles (non-zero exit,
    timeout, missing binary), [translate_tokens] returns: a path-shaped token
    comes back converted (stripped, and with the long-path prefix from 240
    characters on) or, when the tool failed, as it was; every other token
    comes back as it was. *)
Theorem translate_tokens_returns :
  forall wslpath tokens,
    (forall t, In t tokens -> path_shaped t = true ->
               Str.contains ".." t = false /\
               Str.startswith "//" t = false /\
               provided_for (wslpath t) = true) ->
    exists converted,
      translate_tokens wslpath tokens = Ok converted /\
      Forall2 (translated wslpath) tokens converted.
Proof.
  intros wslpath tokens H. unfold translate_tokens.
  destruct (translate_loop_returns wslpath tokens []) as (cs & E & Hcs).
  - intros t Hin Hshape. destruct (H t Hin Hshape) as (Hd & Hs & Hw).
    split; [|exact Hw]. rewrite validate_path_spec, Hd, Hs. reflexivity.
  - exists cs. split; [exact E | exact Hcs].
Qed.

Lemma translate_tokens_returns_for_a_mount_path :
  exists converted,
    translate_tokens wslpath_projects ["echo"; "/mnt/c/Projects/test"; "hello"]
    = Ok converted /\
    Forall2 (translated wslpath_projects)
            ["echo"; "/mnt/c/Projects/test"; "hello"] converted.
Proof.
  apply (translate_tokens_returns wslpath_projects
           ["echo"; "/mnt/c/Projects/test"; "hello"]).
  intros t Hin Hshape. cbn [In] in Hin.
  destruct Hin as [<-|[<-|[<-|[]]]]; repeat split; reflexivity.
Defined.

(** ** Rate limiting *)

Lemma Qgtb_true : forall x y : Q, (y < x)%Q -> Qgtb x y = true.
Proof.
  intros x y H. unfold Qgtb. apply negb_true_iff.
  destruct (Qle_bool x y) eqn:E; [|reflexivity].
  apply Qle_bool_iff in E. lra.
Qed.

Lemma Qgtb_false : forall x y : Q, (x <= y)%Q -> Qgtb x y = false.
Proof.
  intros x y H. unfold Qgtb. apply negb_false_iff.
  apply Qle_bool_iff. exact H.
Qed.

(** Nothing is dropped while the oldest entry is a minute old at most. *)
Lemma prune_young :
  forall now queue,
    (forall t, In t queue -> (now - t <= 60)%Q) -> prune now queue = queue.
Proof.
  intros now [|t rest] H; [reflexivity|].
  cbn [prune]. rewrite Qgtb_false; [reflexivity|].
  apply H. left. reflexivity.
Qed.

Lemma prune_length :
  forall now queue, length (prune now queue) <= length queue.
Proof.
  intros now queue. induction queue as [|t rest IH]; [apply le_n|].
  cbn [prune]. destruct (Qgtb (now - t) 60); cbn [length]; lia.
Qed.

Lemma check_rate_limit_admits :
  forall now queue,
    (forall t, In t queue -> (now - t <= 60)%Q) ->
    length queue < MAX_COMMAND_RATE ->
    check_rate_limit now queue = (true, (queue ++ [now])%list).
Proof.
  intros now queue Hy Hl. unfold check_rate_limit.
  rewrite (prune_young now queue Hy).
  destruct (MAX_COMMAND_RATE <=? length queue) eqn:E; [|reflexivity].
  apply Nat.leb_le in E. lia.
Qed.

Lemma check_rate_limit_refuses :
  forall now queue,
    (forall t, In t queue -> (now - t <= 60)%Q) ->
    MAX_COMMAND_RATE <= length queue ->
    check_rate_limit now queue = (false, queue).
Proof.
  intros now queue Hy Hl. unfold check_rate_limit.
  rewrite (prune_young now queue Hy).
  destruct (MAX_COMMAND_RATE <=? length queue) eqn:E; [reflexivity|].
  apply Nat.leb_gt in E. lia.
Qed.

(** Calls within one minute are all let in and recorded while the queue has
    room for them. *)
Lemma rate_calls_admitted :
  forall base times queue,
    within_a_minute base (queue ++ times)%list ->
    length queue + length times <= MAX_COMMAND_RATE ->
    rate_calls times queue
    = (repeat true (length times), (queue ++ times)%list).
Proof.
  intros base times. induction times as [|now later IH]; intros queue Hw Hl.
  - cbn. rewrite app_nil_r. reflexivity.
  - cbn [rate_calls length repeat]. cbn [length] in Hl.
    rewrite check_rate_limit_admits.
    + rewrite (IH (queue ++ [now])%list).
      * rewrite <- app_assoc. reflexivity.
      * rewrite <- app_assoc. exact Hw.
      * rewrite length_app. cbn [length]. lia.
    + intros t Ht.
      assert (H1 := Hw t (in_or_app _ _ _ (or_introl Ht))).
      assert (H2 := Hw now (in_or_app _ _ _ (or_intror (in_eq _ _)))).
      lra.
    + lia.
Qed.

Lemma rate_calls_app :
  forall a b queue,
    rate_calls (a ++ b)%list queue
    = (fst (rate_calls a queue) ++ fst (rate_calls b (snd (rate_calls a queue))),
       snd (rate_calls b (snd (rate_calls a queue))))%list.
Proof.
  induction a as [|now a IH]; intros b queue.
  - cbn. destruct (rate_calls b queue). reflexivity.
  - cbn [app rate_calls].
    destruct (check_rate_limit now queue) as [answer queue'].
    rewrite (IH b queue').
    destruct (rate_calls a queue') as [answers final]. cbn [fst snd].
    destruct (rate_calls b final). reflexivity.
Qed.

(** C6.  From an empty queue, a hundred calls within one minute are all
    let in; one more call within that minute is turned away and leaves the
    queue as it was; and once the earliest entry is more than a minute old a
    call is let in again. *)
Theorem rate_limit_admits_a_hundred_per_minute :
  forall (base : Q) (times : list Q) (extra : Q),
    length times = MAX_COMMAND_RATE ->
    within_a_minute base (times ++ [extra])%list ->
    rate_calls (times ++ [extra])%list []
    = ((repeat true MAX_COMMAND_RATE ++ [false])%list, times) /\
    (forall first rest later,
        times = first :: rest ->
        (later - first > 60)%Q ->
        fst (check_rate_limit later times) = true).
Proof.
  intros base times extra Hlen Hw. split.
  - rewrite rate_calls_app.
    rewrite (rate_calls_admitted base times []).
    + cbn [fst snd app rate_calls]. rewrite check_rate_limit_refuses.
      * rewrite Hlen. reflexivity.
      * intros t Ht.
        assert (H1 := Hw t (in_or_app _ _ _ (or_introl Ht))).
        assert (H2 := Hw extra (in_or_app _ _ _ (or_intror (in_eq _ _)))).
        lra.
      * rewrite Hlen. apply le_n.
    + intros t Ht. apply Hw. apply in_or_app. left. exact Ht.
    + rewrite Hlen. apply le_n.
  - intros first rest later -> Hold. unfold check_rate_limit.
    cbn [prune]. rewrite (Qgtb_true _ _ Hold).
    pose proof (prune_length later rest) as Hp.
    cbn [length] in Hlen.
    destruct (MAX_COMMAND_RATE <=? length (prune later rest)) eqn:E;
      [|reflexivity].
    apply Nat.leb_le in E. lia.
Qed.

Lemma within_a_minute_checked :
  forall base times,
    forallb (fun t => Qle_bool base t && Qle_bool t (base + 60)) times = true ->
    within_a_minute base times.
Proof.
  intros base times H t Ht.
  rewrite forallb_forall in H. specialize (H t Ht).
  apply andb_true_iff in H. destruct H as [H1 H2].
  apply Qle_bool_iff in H1. apply Qle_bool_iff in H2. split; assumption.
Qed.

Lemma rate_limit_half_second_calls :
  rate_calls (half_seconds ++ [50%Q])%list []
  = ((repeat true MAX_COMMAND_RATE ++ [false])%list, half_seconds) /\
  (forall first rest later,
      half_seconds = first :: rest ->
      (later - first > 60)%Q ->
      fst (check_rate_limit later half_seconds) = true).
Proof.
  apply (rate_limit_admits_a_hundred_per_minute 0%Q half_seconds 50%Q).
  - reflexivity.
  - apply within_a_minute_checked. vm_compute. reflexivity.
Defined.

(** ** The session *)

Import PSRunner.

(** With no sentinel line the read loop ends in the handler of a failed read
    or at the deadline. *)
Lemma read_loop_without_sentinel :
  forall p timeout,
    no_sentinel p ->
    forall fuel elapsed n lines how out,
      read_loop fuel p timeout elapsed n lines = Some (Returns (how, out)) ->
      how = AtReadError \/ how = AtDeadline.
Proof.
  intros p timeout Hno. induction fuel as [|fuel IH];
    intros elapsed n lines how out H.
  - discriminate.
  - cbn [read_loop] in H. destruct (Qltb elapsed timeout).
    + destruct (stdout_readline p n) as [wait text|e|] eqn:E.
      * destruct text as [|c text].
        -- apply IH in H. exact H.
        -- rewrite (Hno n wait _ E) in H. apply IH in H. exact H.
      * destruct (is_Exception e); [|discriminate].
        injection H as <- _. left. reflexivity.
      * discriminate.
    + injection H as <- _. right. reflexivity.
Qed.

(** More fuel does not change an answer the loop has given. *)
Lemma read_loop_more_fuel :
  forall p timeout fuel elapsed n lines r,
    read_loop fuel p timeout elapsed n lines = Some r ->
    read_loop (S fuel) p timeout elapsed n lines = Some r.
Proof.
  intros p timeout. induction fuel as [|fuel IH];
    intros elapsed n lines r H.
  - discriminate.
  - remember (S fuel) as k. cbn [read_loop]. subst k.
    cbn [read_loop] in H. destruct (Qltb elapsed timeout); [|exact H].
    destruct (stdout_readline p n) as [wait text|e|]; try exact H.
    destruct text as [|c text].
    + apply IH. exact H.
    + destruct (Str.startswith "EXIT-CODE:" (String c text)); [exact H|].
      apply IH. exact H.
Qed.

Lemma exit_code_at_deadline :
  forall cmd timeout,
    exit_code_after AtDeadline cmd timeout
    = Raise (ReError invalid_group_reference).
Proof.
  intros cmd timeout. unfold exit_code_after.
  rewrite logging_redact_raises. reflexivity.
Qed.

(** C5 (code defect).  The claim: with no sentinel line before the deadline,
    [_execute_command] leaves its read loop and returns 124.  The code: when
    the deadline passes, the loop's [else] branch builds its log message with
    [redact], which raises (see C3), before it sets 124; so without a
    sentinel line the only exit code [_execute_command] can return is 0 (a
    failed read breaks the loop with [exit_code] unchanged).  A child that
    has closed its output makes the call raise [re.error] at the deadline; a
    child that writes nothing and keeps the pipe open makes the first
    [readline], which blocks, never return, so the deadline is never
    looked at. *)
Theorem execute_command_never_returns_124 :
  forall fuel p cwd cmd timeout,
    no_sentinel p ->
    match _execute_command fuel p cwd cmd timeout with
    | Some (Returns (exit_code, _, _)) => exit_code = 0%Z
    | _ => True
    end /\
    _execute_command 400 closed_child "C:\" "Start-Sleep 60" 30
    = Some (Raises (ReError invalid_group_reference)) /\
    _execute_command 400 silent_child "C:\" "Start-Sleep 60" 30
    = Some Hangs /\
    _execute_command 400 broken_child "C:\" "Start-Sleep 60" 30
    = Some (Returns (0%Z, "", "")).
Proof.
  intros fuel p cwd cmd timeout Hno. split; [|repeat split; vm_compute; reflexivity].
  unfold _execute_command.
  destruct (negb (available p)); [exact I|].
  destruct (stdin_write p _); try exact I.
  destruct (read_loop fuel p (seconds timeout) 0 0 [])
    as [[[how out]|e|]|] eqn:E; try exact I.
  destruct (read_loop_without_sentinel p _ Hno _ _ _ _ _ _ E) as [->| ->].
  - cbn [exit_code_after].
    destruct (drain_stderr fuel p 0 []) as [[err|e|]|]; try exact I.
    reflexivity.
  - rewrite exit_code_at_deadline. exact I.
Qed.

Lemma execute_command_on_a_closed_child :
  match _execute_command 400 closed_child "C:\" "Start-Sleep 60" 30 with
  | Some (Returns (exit_code, _, _)) => exit_code = 0%Z
  | _ => True
  end /\
  _execute_command 400 closed_child "C:\" "Start-Sleep 60" 30
  = Some (Raises (ReError invalid_group_reference)) /\
  _execute_command 400 silent_child "C:\" "Start-Sleep 60" 30
  = Some Hangs /\
  _execute_command 400 broken_child "C:\" "Start-Sleep 60" 30
  = Some (Returns (0%Z, "", "")).
Proof.
  apply (execute_command_never_returns_124 400 closed_child).
  intros n wait line H. injection H as _ <-. reflexivity.
Defined.

(** C7.  When [_execute_command] raises inside [run], [run] calls
    [_start_process] once and, if that returns, [_execute_command] once more,
    and nothing after that: the retry's result is returned as it is, and an
    exception from the restart or from the retry is turned into the result
    [(1, "", "ERROR: Command execution failed: ...")] that carries the text of
    the first exception.  The operations called are listed in order. *)
Theorem run_retries_exactly_once :
  forall (session : Type)
         (check_rate : session -> bool * session)
         (health_check : session -> outcome bool * session)
         (execute : string -> session -> outcome (Z * string * string) * session)
         (sync_working_directory : session -> outcome unit * session)
         (start_process : session -> outcome unit * session)
         (cmd : string) (s0 s1 s2 s3 : session) (log : list call) (e : exn),
    check_rate s0 = (true, s1) ->
    health_check s1 = (Returns true, s2) ->
    execute cmd s2 = (Raises e, s3) ->
    is_Exception e = true ->
    let failed :=
      Returns (1%Z, "",
               "ERROR: Command execution failed: " ++ str_exn e ++ Str.nl) in
    let first_try :=
      (log ++ [CheckRateLimit; HealthCheck; ExecuteCommand cmd])%list in
    let answer :=
      PSRunner.run session check_rate health_check execute
        sync_working_directory start_process cmd (s0, log) in
    match start_process s3 with
    | (Returns _, s4) =>
        let calls := (first_try ++ [StartProcess; ExecuteCommand cmd])%list in
        match execute cmd s4 with
        | (Returns result, s5) => answer = (Returns result, (s5, calls))
        | (Raises retry_e, s5) =>
            answer = (if is_Exception retry_e then failed else Raises retry_e,
                      (s5, calls))
        | (Hangs, s5) => answer = (Hangs, (s5, calls))
        end
    | (Raises retry_e, s4) =>
        answer = (if is_Exception retry_e then failed else Raises retry_e,
                  (s4, (first_try ++ [StartProcess])%list))
    | (Hangs, s4) => answer = (Hangs, (s4, (first_try ++ [StartProcess])%list))
    end.
Proof.
  intros session check_rate health_check execute sync_working_directory
         start_process cmd s0 s1 s2 s3 log e Hrate Hhealth Hexec He.
  cbv zeta.
  unfold PSRunner.run, and_then, except_Exception, perform, ret.
  cbn [fst snd]. rewrite Hrate. cbn [negb fst snd].
  rewrite Hhealth. cbn [negb fst snd].
  rewrite Hexec, He. cbn [fst snd].
  destruct (start_process s3) as [[[]|retry_e|] s4]; cbn [fst snd].
  - destruct (execute cmd s4) as [[result|retry_e|] s5]; cbn [fst snd];
      try destruct (is_Exception retry_e);
      repeat rewrite <- app_assoc; reflexivity.
  - destruct (is_Exception retry_e);
      repeat rewrite <- app_assoc; reflexivity.
  - repeat rewrite <- app_assoc. reflexivity.
Qed.

Lemma run_on_a_broken_pipe :
  PSRunner.run nat (fun s => (true, s)) (fun s => (Returns true, s))
    broken_pipe (fun s => (Returns tt, s)) (fun s => (Returns tt, s))
    "Get-Date" (0, [])
  = (Returns (1%Z, "",
              "ERROR: Command execution failed: " ++
              "PowerShell stdin pipe broken" ++ Str.nl),
     (2, [CheckRateLimit; HealthCheck; ExecuteCommand "Get-Date";
          StartProcess; ExecuteCommand "Get-Date"])).
Proof.
  exact (run_retries_exactly_once nat (fun s => (true, s))
           (fun s => (Returns true, s)) broken_pipe
           (fun s => (Returns tt, s)) (fun s => (Returns tt, s))
           "Get-Date" 0 0 0 1 []
           (RuntimeError "PowerShell stdin pipe broken")
           eq_refl eq_refl eq_refl eq_refl).
Defined.

(** ** The cases of the test suite, on the embedding *)

Example validate_path_cases :
  map validate_path
      ["/mnt/c/Projects/test"; "./relative/path"; "/home/user/file.txt";
       "../../../etc/passwd"; "/mnt/c/../../../Windows/System32";
       "//malicious/path"; "path/../../../sensitive"]
  = [true; true; true; false; false; false; false].
Proof. vm_compute. reflexivity. Qed.

Example map_env_vars_cases :
  map map_env_vars
      ["echo $HOME"; "echo ${HOME}/Documents"; "cd $PWD";
       "echo $TMPDIR/file"; "echo $UNKNOWN_VAR"; "export USER=testuser"]
  = ["echo $env:USERPROFILE"; "echo $env:USERPROFILE/Documents";
     "cd $env:PWD"; "echo $env:TEMP/file"; "echo $env:UNKNOWN_VAR";
     "export USER=testuser"].
Proof. vm_compute. reflexivity. Qed.

Example translate_tokens_case :
  translate_tokens wslpath_projects ["echo"; "/mnt/c/Projects/test"; "hello"]
  = Ok ["echo"; "C:\Projects\test"; "hello"].
Proof. vm_compute. reflexivity. Qed.

Example to_windows_path_failure_case :
  to_windows_path (fun _ => CalledProcessError) "/invalid/path"
  = Ok "/invalid/path".
Proof. vm_compute. reflexivity. Qed.

(** The lexical pass on commands the tests call risky: all are matched but
    the backtick substitution and the lone pipe. *)
Example lexical_pass_cases :
  map denied_by_regex
      ["ls -la"; "cat /etc/passwd"; "rm -rf /"; "echo 'test' | grep pattern";
       "cmd1 && cmd2"; "cmd1 || cmd2"; "cmd1; cmd2"; "echo $(whoami)";
       "grep 'pattern' file*"; "bash -c 'echo test'"; "sudo rm file";
       "echo 'test' > /dev/null 2>&1"; echo_date; "cmd1 | cmd2"]
  = [true; true; true; true; true; true; true; true; true; true; true; true;
     false; false].
Proof. vm_compute. reflexivity. Qed.

(** With a parser that reports the substitution inside a simple command,
    the backtick command is let through. *)
Example backtick_substitution_is_allowed :
  risky (fun _ => Nodes backtick_nodes) echo_date = Ok false.
Proof. vm_compute. reflexivity. Qed.

Example denylisted_word_in_an_argument_cases :
  map denied_by_regex ["Get-Content ls.txt"; "Get-Content cat"; "Get-Content CAT.log";
                       "Get-Content file.txt"; "Get-Content cats"]
  = [true; true; true; false; false].
Proof. vm_compute. reflexivity. Qed.

(** ** The matcher: what a match consumes *)

Lemma repeat_splits_sound :
  forall ic k s lo hi m rest,
    In (m, rest) (repeat_splits ic k lo hi s) -> s = m ++ rest.
Proof.
  intros ic k. induction s as [|c s IH]; intros lo hi m rest H.
  - cbn in H. destruct (lo =? 0); [|destruct H].
    destruct H as [H|[]]. injection H as <- <-. reflexivity.
  - cbn [repeat_splits] in H. apply in_app_or in H. destruct H as [H|H].
    + destruct (cls_matches ic k c && negb (bounded hi)); [|destruct H].
      apply in_map_iff in H. destruct H as ([m' rest'] & E & H).
      injection E as <- <-. cbn [fst snd append].
      rewrite (IH _ _ _ _ H) at 1. reflexivity.
    + destruct (lo =? 0); [|destruct H].
      destruct H as [H|[]]. injection H as <- <-. reflexivity.
Qed.

(** A match is a prefix of the text it was tried on. *)
Lemma run_sound :
  forall ic r prev s g m rest g',
    In (m, rest, g') (Re.run ic r prev s g) -> s = m ++ rest.
Proof.
  intros ic r. induction r as [|k|r1 IH1 r2 IH2|r1 IH1 r2 IH2|k lo hi|n r IH|];
    intros prev s g m rest g' H; cbn [Re.run] in H.
  - destruct H as [H|[]]. injection H as <- <- _. reflexivity.
  - destruct s as [|c s]; [destruct H|].
    destruct (cls_matches ic k c); [|destruct H].
    destruct H as [H|[]]. injection H as <- <- _. reflexivity.
  - apply in_flat_map in H. destruct H as ([[m1 s1] g1] & H1 & H2).
    apply in_map_iff in H2. destruct H2 as ([[m2 s2] g2] & E & H2).
    injection E as <- <- <-.
    rewrite (IH1 _ _ _ _ _ _ H1), (IH2 _ _ _ _ _ _ H2).
    symmetry. apply append_assoc.
  - apply in_app_or in H. destruct H as [H|H].
    + apply (IH1 _ _ _ _ _ _ H).
    + apply (IH2 _ _ _ _ _ _ H).
  - apply in_map_iff in H. destruct H as ([m' rest'] & E & H).
    injection E as <- <- _. apply (repeat_splits_sound _ _ _ _ _ _ _ H).
  - apply in_map_iff in H. destruct H as ([[m' s'] g1] & E & H).
    injection E as <- <- _. apply (IH _ _ _ _ _ _ H).
  - destruct (xorb (word_before prev) (word_after s)); [|destruct H].
    destruct H as [H|[]]. injection H as <- <- _. reflexivity.
Qed.

Lemma run_prev_irrelevant :
  forall ic r,
    boundary_free r = true ->
    forall prev prev' s g, Re.run ic r prev s g = Re.run ic r prev' s g.
Proof.
  intros ic r. induction r as [|k|r1 IH1 r2 IH2|r1 IH1 r2 IH2|k lo hi|n r IH|];
    intros Hfree prev prev' s g; cbn [Re.run]; try reflexivity.
  - cbn in Hfree. apply andb_true_iff in Hfree. destruct Hfree as [H1 H2].
    rewrite (IH1 H1 prev prev').
    induction (Re.run ic r1 prev' s g) as [|[[m1 s1] g1] l IHl];
      [reflexivity|].
    cbn [flat_map]. rewrite IHl.
    rewrite (IH2 H2 (Str.last_char prev m1) (Str.last_char prev' m1)).
    reflexivity.
  - cbn in Hfree. apply andb_true_iff in Hfree. destruct Hfree as [H1 H2].
    rewrite (IH1 H1 prev prev'), (IH2 H2 prev prev'). reflexivity.
  - cbn in Hfree. rewrite (IH Hfree prev prev'). reflexivity.
  - discriminate.
Qed.

(** The longest way to split comes first: a run of characters of the class,
    ended by a character outside it or by the end of the text. *)
Lemma repeat_splits_longest :
  forall ic k name lo post,
    (forall c, Str.has_char c name = true -> cls_matches ic k c = true) ->
    match post with
    | String c _ => cls_matches ic k c = false
    | "" => True
    end ->
    lo <= String.length name ->
    exists others,
      repeat_splits ic k lo None (name ++ post) = (name, post) :: others.
Proof.
  intros ic k. induction name as [|c name IH]; intros lo post Hall Hend Hlo.
  - cbn in Hlo. assert (lo = 0) by lia. subst lo.
    exists []. destruct post as [|d post]; cbn [append repeat_splits].
    + reflexivity.
    + rewrite Hend. reflexivity.
  - cbn [append repeat_splits]. rewrite (Hall c).
    2:{ cbn. rewrite Ascii.eqb_refl. reflexivity. }
    cbn [bounded negb andb option_map].
    destruct (IH (pred lo) post) as [others E].
    + intros d Hd. apply Hall. cbn. rewrite Hd. apply orb_true_r.
    + exact Hend.
    + cbn in Hlo. lia.
    + rewrite E. cbn [map fst snd app]. eexists. reflexivity.
Qed.

Lemma length_append :
  forall a b : string,
    String.length (a ++ b) = String.length a + String.length b.
Proof.
  induction a as [|c a IH]; intro b; [reflexivity|].
  cbn. rewrite IH. reflexivity.
Qed.

Lemma repeat_splits_min :
  forall ic k s lo hi m rest,
    In (m, rest) (repeat_splits ic k lo hi s) -> lo <= String.length m.
Proof.
  intros ic k. induction s as [|c s IH]; intros lo hi m rest H.
  - cbn in H. destruct (lo =? 0) eqn:E; [|destruct H].
    apply Nat.eqb_eq in E. lia.
  - cbn [repeat_splits] in H. apply in_app_or in H. destruct H as [H|H].
    + destruct (cls_matches ic k c && negb (bounded hi)); [|destruct H].
      apply in_map_iff in H. destruct H as ([m' rest'] & E & H).
      injection E as <- <-. cbn [fst String.length].
      apply IH in H. lia.
    + destruct (lo =? 0) eqn:E; [|destruct H].
      apply Nat.eqb_eq in E. lia.
Qed.

Lemma run_min_len :
  forall ic r prev s g m rest g',
    In (m, rest, g') (Re.run ic r prev s g) -> min_len r <= String.length m.
Proof.
  intros ic r. induction r as [|k|r1 IH1 r2 IH2|r1 IH1 r2 IH2|k lo hi|n r IH|];
    intros prev s g m rest g' H; cbn [Re.run] in H; cbn [min_len].
  - lia.
  - destruct s as [|c s]; [destruct H|].
    destruct (cls_matches ic k c); [|destruct H].
    destruct H as [H|[]]. injection H as <- _ _. cbn. lia.
  - apply in_flat_map in H. destruct H as ([[m1 s1] g1] & H1 & H2).
    apply in_map_iff in H2. destruct H2 as ([[m2 s2] g2] & E & H2).
    injection E as <- _ _. rewrite length_append.
    apply IH1 in H1. apply IH2 in H2. lia.
  - apply in_app_or in H. destruct H as [H|H].
    + apply IH1 in H. lia.
    + apply IH2 in H. lia.
  - apply in_map_iff in H. destruct H as ([m' rest'] & E & H).
    injection E as <- _ _. apply (repeat_splits_min _ _ _ _ _ _ _ H).
  - apply in_map_iff in H. destruct H as ([[m' s'] g1] & E & H).
    injection E as <- _ _. apply (IH _ _ _ _ _ _ H).
  - lia.
Qed.

(** *** The loop of [re.sub] for a pattern that never matches the empty
    string and has no [\b] *)

Section Substitution.

Variable p : pattern.
Variable repl : groups -> string.
Hypothesis p_consumes : 1 <= min_len (body p).
Hypothesis p_free : boundary_free (body p) = true.

Lemma match_consumes :
  forall prev s m rest g,
    In (m, rest, g) (run_pattern p prev s) ->
    s = m ++ rest /\ nonempty (m, rest, g) = true /\
    String.length rest < String.length s.
Proof.
  intros prev s m rest g H. unfold run_pattern in H.
  pose proof (run_sound _ _ _ _ _ _ _ _ H) as Hs.
  pose proof (run_min_len _ _ _ _ _ _ _ _ H) as Hm.
  split; [exact Hs|]. split.
  - destruct m; [cbn in Hm; lia | reflexivity].
  - rewrite Hs, length_append. lia.
Qed.

(** Once the fuel exceeds the length of the text, neither the fuel nor the
    character before the text matters. *)
Lemma sub_from_enough :
  forall fuel1 fuel2 prev1 prev2 s,
    String.length s < fuel1 ->
    String.length s < fuel2 ->
    sub_from fuel1 p repl false prev1 s = sub_from fuel2 p repl false prev2 s.
Proof.
  induction fuel1 as [|fuel1 IH]; intros fuel2 prev1 prev2 s H1 H2; [lia|].
  destruct fuel2 as [|fuel2]; [lia|].
  cbn [sub_from first_match].
  replace (run_pattern p prev1 s) with (run_pattern p prev2 s)
    by (apply (run_prev_irrelevant _ _ p_free)).
  destruct (run_pattern p prev2 s) as [|[[m rest] g] others] eqn:E.
  - cbn [hd_error]. destruct s as [|c s]; [reflexivity|].
    cbn in H1, H2. f_equal. apply IH; lia.
  - cbn [hd_error].
    destruct (match_consumes prev2 s m rest g) as (Hs & Hne & Hlen).
    { rewrite E. left. reflexivity. }
    rewrite Hne. f_equal. apply IH; lia.
Qed.

Lemma sub_with_empty : sub_with p repl "" = "".
Proof.
  unfold sub_with. cbn [String.length Nat.mul Nat.add sub_from first_match].
  destruct (run_pattern p None "") as [|[[m rest] g] others] eqn:E.
  - reflexivity.
  - destruct (match_consumes None "" m rest g) as (_ & _ & Hlen).
    { rewrite E. left. reflexivity. }
    cbn in Hlen. lia.
Qed.

(** Where the pattern does not match, the character is copied. *)
Lemma sub_with_copies :
  forall c s,
    run_pattern p None (String c s) = [] ->
    sub_with p repl (String c s) = String c (sub_with p repl s).
Proof.
  intros c s H. unfold sub_with.
  remember (2 * String.length (String c s) + 2) as fuel eqn:Hf.
  destruct fuel as [|fuel]; [cbn in Hf; lia|].
  cbn [sub_from first_match]. rewrite H. cbn [hd_error]. f_equal.
  apply sub_from_enough; cbn in Hf; lia.
Qed.

(** Where it matches, the first match is replaced and the loop goes on after
    it. *)
Lemma sub_with_replaces :
  forall s m rest g others,
    run_pattern p None s = (m, rest, g) :: others ->
    sub_with p repl s = repl g ++ sub_with p repl rest.
Proof.
  intros s m rest g others H. unfold sub_with.
  remember (2 * String.length s + 2) as fuel eqn:Hf.
  destruct fuel as [|fuel]; [lia|].
  cbn [sub_from first_match]. rewrite H. cbn [hd_error].
  destruct (match_consumes None s m rest g) as (Hs & Hne & Hlen).
  { rewrite H. left. reflexivity. }
  rewrite Hne. f_equal. apply sub_from_enough; lia.
Qed.

End Substitution.

(** ** Environment references *)

Lemma env_ref_consumes : 1 <= min_len (body env_ref).
Proof. cbn. lia. Qed.

Lemma env_ref_free : boundary_free (body env_ref) = true.
Proof. reflexivity. Qed.

Lemma env_ref_needs_dollar :
  forall prev c s,
    Ascii.eqb c "$" = false -> run_pattern env_ref prev (String c s) = [].
Proof.
  intros prev c s H. unfold run_pattern, env_ref.
  cbn -[Ascii.eqb]. rewrite H. reflexivity.
Qed.

Lemma all_word_chars :
  forall name,
    all_word name = true ->
    forall c, Str.has_char c name = true ->
              cls_matches false (OneOf [Word]) c = true.
Proof.
  induction name as [|x name IH]; intros Hall c Hc; [discriminate|].
  cbn in Hall. apply andb_true_iff in Hall. destruct Hall as [Hx Hall].
  cbn in Hc. apply orb_true_iff in Hc. destruct Hc as [Hc|Hc].
  - apply Ascii.eqb_eq in Hc. subst c. cbn. rewrite Hx. reflexivity.
  - apply IH; assumption.
Qed.

Lemma word_run :
  forall name post,
    all_word name = true ->
    word_after post = false ->
    name <> "" ->
    exists others,
      repeat_splits false (OneOf [Word]) 1 None (name ++ post)
      = (name, post) :: others.
Proof.
  intros name post Hall Hpost Hne.
  apply repeat_splits_longest.
  - apply all_word_chars. exact Hall.
  - destruct post as [|c post]; [exact I|].
    cbn in Hpost. cbn. rewrite Hpost. reflexivity.
  - destruct name; [congruence | cbn; lia].
Qed.

(** [$NAME]: the first alternative takes the whole run of word characters. *)
Lemma env_ref_bare :
  forall prev name post,
    all_word name = true ->
    word_after post = false ->
    name <> "" ->
    exists others,
      run_pattern env_ref prev ("$" ++ name ++ post)
      = ("$" ++ name, post, [(1, name)]) :: others.
Proof.
  intros prev name post Hall Hpost Hne.
  destruct (word_run name post Hall Hpost Hne) as [others E].
  unfold run_pattern, env_ref. cbn -[repeat_splits].
  rewrite E. cbn -[repeat_splits]. eexists. reflexivity.
Qed.

(** [${NAME}]: only the second alternative applies, and the closing brace
    ends the name. *)
Lemma env_ref_braced :
  forall prev name post,
    all_word name = true ->
    name <> "" ->
    exists others,
      run_pattern env_ref prev ("${" ++ name ++ "}" ++ post)
      = ("${" ++ name ++ "}", post, [(2, name)]) :: others.
Proof.
  intros prev name post Hall Hne.
  destruct (word_run name ("}" ++ post) Hall eq_refl Hne) as [others E].
  assert (E0 : forall x,
             repeat_splits false (OneOf [Word]) 1 None (String "{" x) = [])
    by reflexivity.
  cbn [append] in E.
  unfold run_pattern, env_ref. cbn -[repeat_splits].
  rewrite E0, E. cbn -[repeat_splits]. eexists. reflexivity.
Qed.

Lemma repl_of_name :
  forall n name,
    name <> "" ->
    (n = 1 \/ n = 2) ->
    repl [(n, name)] = "$env:" ++ dict_get ENV_MAP name name.
Proof.
  intros n name Hne [->| ->]; destruct name; try congruence; reflexivity.
Qed.

Lemma map_env_vars_copies :
  forall c s,
    Ascii.eqb c "$" = false ->
    map_env_vars (String c s) = String c (map_env_vars s).
Proof.
  intros c s H. unfold map_env_vars.
  apply (sub_with_copies env_ref repl env_ref_consumes env_ref_free).
  apply env_ref_needs_dollar. exact H.
Qed.

Lemma map_env_vars_prefix :
  forall pre s,
    Str.has_char "$" pre = false ->
    map_env_vars (pre ++ s) = pre ++ map_env_vars s.
Proof.
  induction pre as [|c pre IH]; intros s H; [reflexivity|].
  cbn in H. apply orb_false_iff in H. destruct H as [Hc Hpre].
  cbn [append]. rewrite (map_env_vars_copies c _ Hc), (IH s Hpre).
  reflexivity.
Qed.

Lemma map_env_vars_empty : map_env_vars "" = "".
Proof.
  apply (sub_with_empty env_ref repl env_ref_consumes).
Qed.

Lemma map_env_vars_bare :
  forall name post,
    all_word name = true ->
    word_after post = false ->
    name <> "" ->
    map_env_vars ("$" ++ name ++ post)
    = "$env:" ++ dict_get ENV_MAP name name ++ map_env_vars post.
Proof.
  intros name post Hall Hpost Hne.
  destruct (env_ref_bare None name post Hall Hpost Hne) as [others E].
  unfold map_env_vars.
  rewrite (sub_with_replaces env_ref repl env_ref_consumes env_ref_free
             _ _ _ _ _ E).
  rewrite (repl_of_name 1 name Hne (or_introl eq_refl)).
  apply append_assoc.
Qed.

(** X1.  [map_env_vars] copies the text before the first dollar sign, and a
    command without a dollar sign comes back as it is. *)
Theorem map_env_vars_keeps_text_without_dollar :
  forall pre s,
    Str.has_char "$" pre = false ->
    map_env_vars (pre ++ s) = pre ++ map_env_vars s /\
    map_env_vars pre = pre.
Proof.
  intros pre s H. split.
  - apply map_env_vars_prefix. exact H.
  - rewrite <- (append_empty_r pre) at 1.
    rewrite (map_env_vars_prefix pre "" H), map_env_vars_empty.
    apply append_empty_r.
Qed.

Lemma map_env_vars_keeps_get_date :
  map_env_vars ("Get-Date -Format " ++ "o $x") =
  "Get-Date -Format " ++ map_env_vars "o $x" /\
  map_env_vars "Get-Date -Format " = "Get-Date -Format ".
Proof.
  apply (map_env_vars_keeps_text_without_dollar "Get-Date -Format " "o $x").
  reflexivity.
Defined.

(** X2.  A reference [$NAME], where NAME is the longest run of word
    characters after the dollar sign, becomes [$env:] followed by the entry
    of [ENV_MAP] for NAME, or by NAME itself when the table has none; the
    rest of the command is rewritten in the same way. *)
Theorem map_env_vars_rewrites_a_bare_reference :
  forall pre name post,
    Str.has_char "$" pre = false ->
    all_word name = true ->
    name <> "" ->
    word_after post = false ->
    map_env_vars (pre ++ "$" ++ name ++ post)
    = pre ++ "$env:" ++ dict_get ENV_MAP name name ++ map_env_vars post.
Proof.
  intros pre name post Hpre Hall Hne Hpost.
  rewrite (map_env_vars_prefix pre _ Hpre).
  rewrite (map_env_vars_bare name post Hall Hpost Hne). reflexivity.
Qed.

Lemma map_env_vars_rewrites_tmpdir :
  map_env_vars ("type " ++ "$" ++ "TMPDIR" ++ "/x.log")
  = "type " ++ "$env:" ++ dict_get ENV_MAP "TMPDIR" "TMPDIR" ++
    map_env_vars "/x.log".
Proof.
  apply (map_env_vars_rewrites_a_bare_reference "type " "TMPDIR" "/x.log");
    (reflexivity || discriminate).
Defined.

(** X3.  A reference [${NAME}] is rewritten like [$NAME], whatever follows
    the closing brace. *)
Theorem map_env_vars_rewrites_a_braced_reference :
  forall pre name post,
    Str.has_char "$" pre = false ->
    all_word name = true ->
    name <> "" ->
    map_env_vars (pre ++ "${" ++ name ++ "}" ++ post)
    = pre ++ "$env:" ++ dict_get ENV_MAP name name ++ map_env_vars post.
Proof.
  intros pre name post Hpre Hall Hne.
  rewrite (map_env_vars_prefix pre _ Hpre).
  destruct (env_ref_braced None name post Hall Hne) as [others E].
  unfold map_env_vars at 1.
  rewrite (sub_with_replaces env_ref repl env_ref_consumes env_ref_free
             _ _ _ _ _ E).
  rewrite (repl_of_name 2 name Hne (or_intror eq_refl)).
  fold (map_env_vars post). rewrite append_assoc. reflexivity.
Qed.

Lemma map_env_vars_rewrites_braced_home :
  map_env_vars ("cd " ++ "${" ++ "HOME" ++ "}" ++ "data")
  = "cd " ++ "$env:" ++ dict_get ENV_MAP "HOME" "HOME" ++ map_env_vars "data".
Proof.
  apply (map_env_vars_rewrites_a_braced_reference "cd " "HOME" "data");
    (reflexivity || discriminate).
Defined.

(** X4.  [map_env_vars] is not idempotent: it reads the [$env] of a
    reference that is already in the target syntax as a variable named
    [env], and writes [$env:env:] for it. *)
Theorem map_env_vars_rewrites_its_own_output :
  forall post,
    map_env_vars ("$env:" ++ post) = "$env:env:" ++ map_env_vars post.
Proof.
  intro post.
  change ("$env:" ++ post) with ("$" ++ "env" ++ ":" ++ post).
  rewrite (map_env_vars_bare "env" (":" ++ post));
    [| reflexivity | reflexivity | discriminate].
  cbn [dict_get ENV_MAP String.eqb Ascii.eqb Bool.eqb]. cbn [append].
  rewrite (map_env_vars_copies ":" post eq_refl). reflexivity.
Qed.

(** ** Rate limiting: what the queue keeps *)

Lemma check_rate_limit_length :
  forall now queue,
    length (snd (check_rate_limit now queue))
    <= Nat.max (length queue) MAX_COMMAND_RATE.
Proof.
  intros now queue. unfold check_rate_limit.
  pose proof (prune_length now queue) as Hp.
  destruct (MAX_COMMAND_RATE <=? length (prune now queue)) eqn:E;
    cbn [snd].
  - lia.
  - apply Nat.leb_gt in E. rewrite length_app. cbn [length]. lia.
Qed.

(** X5.  The queue never grows beyond [MAX_COMMAND_RATE] entries, whatever
    the times of the calls are (the clock may even run backwards); in
    particular it never does from the empty queue. *)
Theorem rate_queue_is_bounded :
  forall times queue,
    length (snd (rate_calls times queue))
    <= Nat.max (length queue) MAX_COMMAND_RATE /\
    length (snd (rate_calls times [])) <= MAX_COMMAND_RATE.
Proof.
  assert (H : forall times queue,
             length (snd (rate_calls times queue))
             <= Nat.max (length queue) MAX_COMMAND_RATE).
  { induction times as [|now later IH]; intro queue.
    - cbn. lia.
    - cbn [rate_calls].
      pose proof (check_rate_limit_length now queue) as Hc.
      destruct (check_rate_limit now queue) as [answer queue'].
      cbn [snd] in Hc. specialize (IH queue').
      destruct (rate_calls later queue') as [answers final].
      cbn [snd] in *. lia. }
  intros times queue. split; [apply H|].
  specialize (H times []). cbn [length] in H. lia.
Qed.

Lemma prune_suffix :
  forall now queue,
    exists dropped, queue = (dropped ++ prune now queue)%list.
Proof.
  intros now queue. induction queue as [|t rest IH].
  - exists []. reflexivity.
  - cbn [prune]. destruct (Qgtb (now - t) 60).
    + destruct IH as [dropped E]. exists (t :: dropped).
      cbn [app]. rewrite <- E. reflexivity.
    + exists []. reflexivity.
Qed.

Lemma ascending_suffix :
  forall a b, ascending (a ++ b)%list -> ascending b.
Proof.
  induction a as [|t a IH]; intros b H; [exact H|].
  cbn in H. apply IH. exact (proj2 H).
Qed.

Lemma ascending_snoc :
  forall queue now,
    ascending queue ->
    (forall t, In t queue -> (t <= now)%Q) ->
    ascending (queue ++ [now])%list.
Proof.
  induction queue as [|t rest IH]; intros now Ha Hle.
  - cbn. split; [intros u []|exact I].
  - cbn [app ascending]. destruct Ha as [Ht Ha]. split.
    + intros u Hu. apply in_app_or in Hu. destruct Hu as [Hu|[<-|[]]].
      * apply Ht. exact Hu.
      * apply Hle. left. reflexivity.
    + apply IH; [exact Ha|]. intros u Hu. apply Hle. right. exact Hu.
Qed.

(** After pruning an ascending queue every entry left is within the
    minute. *)
Lemma prune_ascending_young :
  forall now queue,
    ascending queue ->
    forall t, In t (prune now queue) -> (now - t <= 60)%Q.
Proof.
  intros now queue. induction queue as [|h rest IH]; intros Ha t Ht.
  - destruct Ht.
  - cbn [prune] in Ht. destruct (Qgtb (now - h) 60) eqn:E.
    + apply IH; [exact (proj2 Ha) | exact Ht].
    + unfold Qgtb in E. apply negb_false_iff in E.
      apply Qle_bool_iff in E.
      destruct Ht as [<-|Ht]; [exact E|].
      pose proof (proj1 Ha t Ht). lra.
Qed.

(** X6.  With a clock that does not run backwards the window is kept: if the
    queue is in ascending order and holds no time later than [now], then
    after [check_rate_limit] at [now] it is still in ascending order, and
    every entry is at most [now] and at most 60 seconds old. *)
Theorem rate_queue_keeps_the_window :
  forall now queue,
    ascending queue ->
    (forall t, In t queue -> (t <= now)%Q) ->
    let queue' := snd (check_rate_limit now queue) in
    ascending queue' /\
    (forall t, In t queue' -> (t <= now /\ now - t <= 60)%Q).
Proof.
  intros now queue Ha Hle. cbv zeta.
  destruct (prune_suffix now queue) as [dropped E].
  assert (Hp : ascending (prune now queue)).
  { apply (ascending_suffix dropped). rewrite <- E. exact Ha. }
  assert (Hin : forall t, In t (prune now queue) -> In t queue).
  { intros t Ht. rewrite E. apply in_or_app. right. exact Ht. }
  pose proof (prune_ascending_young now queue Ha) as Hy.
  unfold check_rate_limit.
  destruct (MAX_COMMAND_RATE <=? length (prune now queue)); cbn [snd].
  - split; [exact Hp|]. intros t Ht. split; [apply Hle, Hin, Ht | apply Hy, Ht].
  - split.
    + apply ascending_snoc; [exact Hp|].
      intros t Ht. apply Hle, Hin, Ht.
    + intros t Ht. apply in_app_or in Ht. destruct Ht as [Ht|[<-|[]]].
      * split; [apply Hle, Hin, Ht | apply Hy, Ht].
      * split; lra.
Qed.

Lemma rate_queue_keeps_the_window_after_a_pause :
  let queue' := snd (check_rate_limit (125 # 2) [0%Q; 1%Q; 30%Q]) in
  ascending queue' /\
  (forall t, In t queue' -> (t <= 125 # 2 /\ (125 # 2) - t <= 60)%Q).
Proof.
  apply (rate_queue_keeps_the_window (125 # 2) [0%Q; 1%Q; 30%Q]).
  - cbn. repeat split; intros u Hu;
      repeat (destruct Hu as [<-|Hu]; [vm_compute; discriminate|]);
      destruct Hu.
  - intros t Ht.
    repeat (destruct Ht as [<-|Ht]; [vm_compute; discriminate|]).
    destruct Ht.
Defined.

(** ** Path translation: the long-path guard and what is left alone *)





Lemma translate_token_shape :
  forall wslpath tok c,
    translate_token wslpath tok = Ok c ->
    (path_shaped tok = false -> c = tok) /\
    (path_shaped tok = true -> validate_path tok = true).
Proof.
  intros wslpath tok c. unfold translate_token, to_windows_path.
  destruct (path_shaped tok).
  - destruct (validate_path tok); cbn [negb].
    + intros _. split; [discriminate | reflexivity].
    + discriminate.
  - intro H. injection H as <-. split; [reflexivity | discriminate].
Qed.

Lemma translate_loop_shape :
  forall wslpath tokens converted out,
    translate_loop wslpath tokens converted = Ok out ->
    exists cs,
      out = (converted ++ cs)%list /\
      Forall2 (fun tok c => path_shaped tok = false -> c = tok) tokens cs /\
      (forall tok, In tok tokens -> path_shaped tok = true ->
                   validate_path tok = true).
Proof.
  intros wslpath tokens. induction tokens as [|tok rest IH];
    intros converted out H.
  - cbn in H. injection H as <-. exists [].
    rewrite app_nil_r. repeat split; [constructor | intros tok []].
  - cbn [translate_loop] in H.
    destruct (translate_token wslpath tok) as [c|e] eqn:E; [|discriminate].
    cbn [bind] in H. destruct (IH _ _ H) as (cs & -> & Hcs & Hvalid).
    destruct (translate_token_shape _ _ _ E) as [Hplain Hpath].
    exists (c :: cs). rewrite <- app_assoc. split; [reflexivity|]. split.
    + constructor; assumption.
    + intros t [<-|Ht]; [exact Hpath | apply Hvalid; exact Ht].
Qed.

(** X8.  When [translate_tokens] returns, it returns as many tokens as it
    was given, in the same order; those that are not path-shaped are
    unchanged, and every path-shaped one has passed [validate_path]: the
    result never holds the translation of a path with two dots side by side
    or with two leading slashes. *)
Theorem translate_tokens_result_shape :
  forall wslpath tokens out,
    translate_tokens wslpath tokens = Ok out ->
    length out = length tokens /\
    Forall2 (fun tok c => path_shaped tok = false -> c = tok) tokens out /\
    (forall tok, In tok tokens -> path_shaped tok = true ->
                 Str.contains ".." tok = false /\
                 Str.startswith "//" tok = false).
Proof.
  intros wslpath tokens out H. unfold translate_tokens in H.
  destruct (translate_loop_shape _ _ _ _ H) as (cs & -> & Hcs & Hvalid).
  cbn [app]. split; [|split].
  - symmetry. apply (Forall2_length Hcs).
  - exact Hcs.
  - intros tok Hin Hshape. specialize (Hvalid tok Hin Hshape).
    rewrite validate_path_spec in Hvalid.
    apply andb_true_iff in Hvalid. destruct Hvalid as [H1 H2].
    apply negb_true_iff in H1. apply negb_true_iff in H2.
    split; assumption.
Qed.

Lemma translate_tokens_result_shape_for_a_copy :
  length ["Copy-Item"; "C:\Projects\test"; "/tmp"] =
  length ["Copy-Item"; "/mnt/c/Projects/test"; "/tmp"] /\
  Forall2 (fun tok c => path_shaped tok = false -> c = tok)
          ["Copy-Item"; "/mnt/c/Projects/test"; "/tmp"]
          ["Copy-Item"; "C:\Projects\test"; "/tmp"] /\
  (forall tok, In tok ["Copy-Item"; "/mnt/c/Projects/test"; "/tmp"] ->
               path_shaped tok = true ->
               Str.contains ".." tok = false /\
               Str.startswith "//" tok = false).
Proof.
  apply (translate_tokens_result_shape wslpath_projects
           ["Copy-Item"; "/mnt/c/Projects/test"; "/tmp"]).
  reflexivity.
Defined.

Lemma has_char_append :
  forall c a b,
    Str.has_char c (a ++ b) = Str.has_char c a || Str.has_char c b.
Proof.
  intros c a b. induction a as [|x a IH]; [reflexivity|].
  cbn. rewrite IH. apply orb_assoc.
Qed.

Lemma not_converted_plain :
  forall tok, not_converted tok -> path_shaped tok = false.
Proof.
  intros tok [H|(name & -> & H)]; unfold path_shaped.
  - rewrite H. cbn [andb].
    destruct tok as [|c tok]; [reflexivity|].
    cbn [Str.startswith] in *.
    destruct (Ascii.eqb "/" c); [discriminate | reflexivity].
  - change ("/" ++ name) with (String "/" name). cbv iota beta.
    rewrite H, andb_false_r, orb_false_r.
    change (Str.startswith "/mnt/" (String "/" name))
      with (Str.startswith "mnt/" name).
    destruct (Str.startswith "mnt/" name) eqn:E; [|reflexivity].
    destruct (startswith_split _ _ E) as [post ->].
    rewrite has_char_append in H. discriminate.
Qed.

(** X9.  [translate_tokens] checks and converts absolute paths only: a list
    of tokens that do not start with a slash, or are a single name under the
    root (like [/tmp]), comes back as it is, the conversion tool is not
    asked, and [validate_path] is not applied, so that a relative [../]
    traversal passes. *)
Theorem translate_tokens_leaves_relative_tokens :
  forall wslpath tokens,
    (forall tok, In tok tokens -> not_converted tok) ->
    translate_tokens wslpath tokens = Ok tokens.
Proof.
  intros wslpath tokens H. unfold translate_tokens.
  assert (G : forall converted,
             translate_loop wslpath tokens converted
             = Ok (converted ++ tokens)%list).
  { induction tokens as [|tok rest IH]; intro converted.
    - cbn. rewrite app_nil_r. reflexivity.
    - cbn [translate_loop].
      rewrite (translate_token_plain wslpath tok).
      + cbn [bind]. rewrite IH.
        * rewrite <- app_assoc. reflexivity.
        * intros t Ht. apply H. right. exact Ht.
      + apply not_converted_plain. apply H. left. reflexivity. }
  apply (G []).
Qed.

Lemma translate_tokens_leaves_a_relative_traversal :
  translate_tokens wslpath_missing ["Get-Content"; "../../etc/passwd"; "/tmp"]
  = Ok ["Get-Content"; "../../etc/passwd"; "/tmp"].
Proof.
  apply (translate_tokens_leaves_relative_tokens wslpath_missing
           ["Get-Content"; "../../etc/passwd"; "/tmp"]).
  intros tok Hin. cbn [In] in Hin.
  destruct Hin as [<-|[<-|[<-|[]]]].
  - left. reflexivity.
  - left. reflexivity.
  - right. exists "tmp". split; reflexivity.
Defined.

(** ** The validator: what it lets through *)

Lemma repeat_splits_nothing :
  forall ic k hi s, In ("", s) (repeat_splits ic k 0 hi s).
Proof.
  intros ic k hi s. destruct s as [|c s]; cbn [repeat_splits].
  - left. reflexivity.
  - apply in_or_app. right. left. reflexivity.
Qed.

Lemma repeat_splits_one :
  forall ic k c post,
    cls_matches ic k c = true ->
    In (String c "", post) (repeat_splits ic k 1 (Some 2) (String c post)).
Proof.
  intros ic k c post H. cbn [repeat_splits]. rewrite H.
  cbn [bounded negb andb pred option_map].
  apply in_or_app. left. apply in_map_iff.
  exists ("", post). split; [reflexivity | apply repeat_splits_nothing].
Qed.

Lemma angle_found :
  forall c pre post,
    cls_matches true (OneOf [Chr "<"; Chr ">"]) c = true ->
    denied_by_regex (pre ++ String c post) = true.
Proof.
  intros c pre post H.
  eapply (operator_found (nth 6 DENY_OPERATORS Empty)).
  - cbn. tauto.
  - cbn [nth DENY_OPERATORS Re.run]. apply in_map_iff.
    exists (String c "", post). split; [reflexivity|].
    apply repeat_splits_one. exact H.
Qed.

Lemma contains_one_char :
  forall c s, Str.contains (String c "") s = Str.has_char c s.
Proof.
  intros c s. induction s as [|x s IH]; [reflexivity|].
  cbn [Str.contains Str.has_char Str.startswith]. rewrite IH.
  rewrite andb_true_r, Ascii.eqb_sym. reflexivity.
Qed.

Lemma forbidden_text_found :
  forall op cmd,
    In op forbidden_texts ->
    Str.contains op cmd = true ->
    denied_by_regex cmd = true \/ has_control_bytes cmd = true.
Proof.
  intros op cmd Hop Hc. unfold forbidden_texts in Hop. cbn [In] in Hop.
  destruct Hop as
    [<-|[<-|[<-|[<-|[<-|[<-|[<-|[<-|[<-|[<-|[<-|[<-|[<-|[<-|[]]]]]]]]]]]]]]].
  13,14: right; rewrite contains_one_char in Hc; unfold has_control_bytes;
         cbn [existsb]; rewrite Hc; cbn; try reflexivity;
         apply orb_true_r.
  all: left; destruct (contains_split _ _ Hc) as (pre & post & ->).
  - operator_alternative 0.
  - operator_alternative 0.
  - operator_alternative 1.
  - operator_alternative 2.
  - operator_alternative 3.
  - apply angle_found. reflexivity.
  - apply angle_found. reflexivity.
  - operator_alternative 7.
  - operator_alternative 7.
  - operator_alternative 9.
  - operator_alternative 9.
  - operator_alternative 11.
Qed.

Lemma risky_allowed :
  forall bashlex cmd,
    risky bashlex cmd = Ok false ->
    denied_by_regex cmd = false /\
    has_control_bytes cmd = false /\
    exists kinds,
      bashlex cmd = Nodes kinds /\ existsb kind_blocked kinds = false.
Proof.
  intros bashlex cmd H. unfold risky in H.
  destruct (denied_by_regex cmd).
  { rewrite logging_redact_raises in H. discriminate. }
  destruct (has_control_bytes cmd).
  { rewrite logging_redact_raises in H. discriminate. }
  destruct (bashlex cmd) as [kinds|e] eqn:Hp.
  - destruct (existsb kind_blocked kinds) eqn:E.
    + rewrite logging_redact_raises in H. discriminate.
    + repeat split. exists kinds. split; [reflexivity | exact E].
  - rewrite (logging_redact_raises cmd
               (fun r => "Command blocked - parse error: " ++ r ++ " - " ++ e))
      in H.
    discriminate.
Qed.

(** X10.  A command that [risky] lets through holds none of the forbidden
    texts (line break, [;], [||], [&&], [<], [>], an opening of a
    substitution, [*], [?], [../], NUL, SUB), has no denylisted name between
    non-word characters in any mix of cases, and was parsed by [bashlex] into
    nodes none of which is of a blocked kind. *)
Theorem risky_lets_only_clean_commands_through :
  forall bashlex cmd,
    risky bashlex cmd = Ok false ->
    (forall op, In op forbidden_texts -> Str.contains op cmd = false) /\
    (forall pre w post,
        cmd = pre ++ w ++ post ->
        In (Str.lower w) DENY_NAMES ->
        word_bounded pre post = false) /\
    exists kinds,
      bashlex cmd = Nodes kinds /\
      forall kind, In kind kinds -> ~ In kind blocked_kinds.
Proof.
  intros bashlex cmd H.
  destruct (risky_allowed _ _ H) as (Hd & Hc & kinds & Hp & Hk).
  split; [|split].
  - intros op Hop. destruct (Str.contains op cmd) eqn:E; [|reflexivity].
    destruct (forbidden_text_found op cmd Hop E); congruence.
  - intros pre w post -> Hname.
    destruct (word_bounded pre post) eqn:E; [|reflexivity].
    rewrite (denylisted_word_found pre w post Hname E) in Hd. discriminate.
  - exists kinds. split; [exact Hp|].
    intros kind Hin Hblocked.
    assert (existsb kind_blocked kinds = true); [|congruence].
    apply existsb_exists. exists kind. split; [exact Hin|].
    unfold kind_blocked. apply existsb_exists.
    exists kind. split; [exact Hblocked | apply String.eqb_refl].
Qed.

Lemma risky_lets_write_host_through :
  (forall op, In op forbidden_texts ->
              Str.contains op "Write-Host hello" = false) /\
  (forall pre w post,
      "Write-Host hello" = pre ++ w ++ post ->
      In (Str.lower w) DENY_NAMES ->
      word_bounded pre post = false) /\
  exists kinds,
    bashlex_simple "Write-Host hello" = Nodes kinds /\
    forall kind, In kind kinds -> ~ In kind blocked_kinds.
Proof.
  apply (risky_lets_only_clean_commands_through
           bashlex_simple "Write-Host hello").
  reflexivity.
Defined.

(** ** The session: a command that answers *)

Lemma Qltb_true : forall x y : Q, (x < y)%Q -> Qltb x y = true.
Proof.
  intros x y H. unfold Qltb. apply negb_true_iff.
  destruct (Qle_bool y x) eqn:E; [|reflexivity].
  apply Qle_bool_iff in E. lra.
Qed.

Lemma delivers_next :
  forall wl script last i,
    delivers (wl :: script) last (S i) = delivers script last i.
Proof. reflexivity. Qed.

(** The read loop collects the lines of the script and stops at the
    sentinel, provided the lines before it arrive in time. *)
Lemma read_loop_collects :
  forall p timeout last_wait sentinel script fuel elapsed n lines,
    (forall i, stdout_readline p (n + i)
               = delivers script (Reads last_wait sentinel) i) ->
    Forall output_line script ->
    Str.startswith "EXIT-CODE:" sentinel = true ->
    (elapsed + total_wait script < timeout)%Q ->
    length script < fuel ->
    read_loop fuel p timeout elapsed n lines
    = Some (Returns (AtSentinel (sentinel_code sentinel),
                     (lines ++ map snd script)%list)).
Proof.
  intros p timeout last_wait sentinel script.
  induction script as [|[wait line] script IH];
    intros fuel elapsed n lines Hp Hok Hs Ht Hf;
    (destruct fuel as [|fuel]; [cbn in Hf; lia|]); cbn [read_loop].
  - cbn [total_wait] in Ht. rewrite Qltb_true by lra.
    specialize (Hp 0). rewrite Nat.add_0_r in Hp. rewrite Hp.
    cbn [delivers map app nth].
    destruct sentinel as [|c sentinel]; [discriminate|].
    rewrite Hs, app_nil_r. reflexivity.
  - inversion Hok as [|x l (Hw & Hne & Hns) Hrest]; subst.
    cbn [fst snd] in Hw, Hne, Hns. cbn [total_wait] in Ht.
    assert (Htotal : (0 <= total_wait script)%Q).
    { clear -Hrest. induction Hrest as [|[w l] rest (Hw & _) _ IHr].
      - cbn. lra.
      - cbn [total_wait fst] in *. lra. }
    rewrite Qltb_true by lra.
    pose proof (Hp 0) as H0. rewrite Nat.add_0_r in H0. rewrite H0.
    cbn [delivers map app nth fst snd].
    destruct line as [|c line]; [congruence|].
    rewrite Hns.
    rewrite (IH fuel (elapsed + wait)%Q (S n) (lines ++ [String c line])%list).
    + cbn [map snd]. rewrite <- app_assoc. reflexivity.
    + intro i. rewrite <- (delivers_next (wait, String c line)).
      rewrite <- Hp. f_equal. lia.
    + exact Hrest.
    + exact Hs.
    + lra.
    + cbn [length] in Hf. lia.
Qed.

Lemma drain_stderr_collects :
  forall p end_wait script fuel n lines,
    (forall i, stderr_readline p (n + i)
               = delivers script (Reads end_wait "") i) ->
    Forall (fun wl : Q * string => snd wl <> "") script ->
    length script < fuel ->
    drain_stderr fuel p n lines
    = Some (Returns (lines ++ map snd script)%list).
Proof.
  intros p end_wait script.
  induction script as [|[wait line] script IH];
    intros fuel n lines Hp Hok Hf;
    (destruct fuel as [|fuel]; [cbn in Hf; lia|]); cbn [drain_stderr].
  - specialize (Hp 0). rewrite Nat.add_0_r in Hp. rewrite Hp.
    cbn [delivers map app nth]. rewrite app_nil_r. reflexivity.
  - inversion Hok as [|x l Hne Hrest]; subst. cbn [snd] in Hne.
    pose proof (Hp 0) as H0. rewrite Nat.add_0_r in H0. rewrite H0.
    cbn [delivers map app nth fst snd].
    destruct line as [|c line]; [congruence|].
    rewrite (IH fuel (S n) (lines ++ [String c line])%list).
    + cbn [map snd]. rewrite <- app_assoc. reflexivity.
    + intro i. rewrite <- (delivers_next (wait, String c line)).
      rewrite <- Hp. f_equal. lia.
    + exact Hrest.
    + cbn [length] in Hf. lia.
Qed.

(** X11.  If the child is running, takes the command, writes output lines
    that arrive within the deadline and then a sentinel line, and its error
    stream ends after the lines it holds, [_execute_command] returns the code
    of the sentinel line with all the output lines and all the error lines,
    in order.  The wait for the sentinel line itself is not bounded: the
    deadline is looked at only between two reads. *)
Theorem execute_command_returns_the_sentinel_code :
  forall p cwd cmd timeout fuel out last_wait sentinel err end_wait,
    available p = true ->
    stdin_write p (full_cmd cwd cmd ++ Str.nl) = Written ->
    (forall i, stdout_readline p i
               = delivers out (Reads last_wait sentinel) i) ->
    (forall i, stderr_readline p i = delivers err (Reads end_wait "") i) ->
    Forall output_line out ->
    Str.startswith "EXIT-CODE:" sentinel = true ->
    Forall (fun wl : Q * string => snd wl <> "") err ->
    (total_wait out < seconds timeout)%Q ->
    length out < fuel ->
    length err < fuel ->
    _execute_command fuel p cwd cmd timeout
    = Some (Returns (sentinel_code sentinel,
                     Str.join "" (map snd out),
                     Str.join "" (map snd err))).
Proof.
  intros p cwd cmd timeout fuel out last_wait sentinel err end_wait
         Ha Hw Hout Herr Hlines Hs Herrs Ht Hf1 Hf2.
  unfold _execute_command. rewrite Ha, Hw. cbn [negb].
  rewrite (read_loop_collects p (seconds timeout) last_wait sentinel out
             fuel 0 0 []); try assumption.
  - cbn [exit_code_after app].
    rewrite (drain_stderr_collects p end_wait err fuel 0 []); try assumption.
    reflexivity.
  - lra.
Qed.

Lemma execute_command_on_an_answering_child :
  _execute_command 10 answering_child "C:\" "Get-Thing" 30
  = Some (Returns (sentinel_code ("EXIT-CODE:3" ++ Str.nl),
                   Str.join "" (map snd [(1 # 2, "hello" ++ Str.nl);
                                         (1%Q, "world" ++ Str.nl)]),
                   Str.join "" (map snd (@nil (Q * string))))).
Proof.
  apply (execute_command_returns_the_sentinel_code
           answering_child "C:\" "Get-Thing" 30 10
           [(1 # 2, "hello" ++ Str.nl); (1%Q, "world" ++ Str.nl)]
           40 ("EXIT-CODE:3" ++ Str.nl) [] 0).
  - reflexivity.
  - reflexivity.
  - intro i. reflexivity.
  - intro i. reflexivity.
  - repeat constructor; cbn; (discriminate || congruence).
  - reflexivity.
  - constructor.
  - vm_compute. reflexivity.
  - cbn. lia.
  - cbn. lia.
Defined.

(** X12.  [_execute_command] reads the error stream with a blocking
    [readline] until the end of the file: while the child keeps that stream
    open and writes nothing to it, the call does not return a result, even
    after the sentinel line has been read. *)
Theorem execute_command_waits_for_the_error_stream :
  forall fuel p cwd cmd timeout,
    stderr_readline p 0 = Silent ->
    _execute_command fuel p cwd cmd timeout = None \/
    _execute_command fuel p cwd cmd timeout = Some Hangs \/
    exists e, _execute_command fuel p cwd cmd timeout = Some (Raises e).
Proof.
  intros fuel p cwd cmd timeout H. unfold _execute_command.
  destruct (negb (available p)); [right; right; eexists; reflexivity|].
  destruct (stdin_write p _); try (right; right; eexists; reflexivity).
  destruct (read_loop fuel p (seconds timeout) 0 0 [])
    as [[[how out]|e|]|]; [| right; right; eexists; reflexivity
                            | right; left; reflexivity
                            | left; reflexivity].
  destruct (exit_code_after how cmd timeout) as [code|e];
    [|right; right; eexists; reflexivity].
  destruct fuel as [|fuel]; [left; reflexivity|].
  cbn [drain_stderr]. rewrite H. right. left. reflexivity.
Qed.

Lemma execute_command_on_a_quiet_error_stream :
  _execute_command 10 quiet_stderr_child "C:\" "Get-Date" 30 = None \/
  _execute_command 10 quiet_stderr_child "C:\" "Get-Date" 30 = Some Hangs \/
  exists e,
    _execute_command 10 quiet_stderr_child "C:\" "Get-Date" 30
    = Some (Raises e).
Proof.
  apply (execute_command_waits_for_the_error_stream
           10 quiet_stderr_child "C:\" "Get-Date" 30).
  reflexivity.
Defined.

(** ** The sentinel line: reading the exit code back *)

Lemma split_from_without_separator :
  forall sep s cur,
    Str.has_char sep s = false ->
    Str.split_from sep cur s = [Str.rev cur ++ s].
Proof.
  intros sep s. induction s as [|c s IH]; intros cur H.
  - cbn. rewrite append_empty_r. reflexivity.
  - cbn in H. apply orb_false_iff in H. destruct H as [Hc Hs].
    cbn [Str.split_from]. rewrite Hc, (IH _ Hs), rev_cons.
    rewrite append_assoc. reflexivity.
Qed.

Lemma rev_append :
  forall a b, Str.rev (a ++ b) = Str.rev b ++ Str.rev a.
Proof.
  induction a as [|c a IH]; intro b.
  - cbn [append]. change (Str.rev "") with "".
    rewrite append_empty_r. reflexivity.
  - cbn [append]. rewrite !rev_cons, IH. apply append_assoc.
Qed.

Lemma rev_involutive : forall s, Str.rev (Str.rev s) = s.
Proof.
  induction s as [|c s IH]; [reflexivity|].
  rewrite rev_cons, rev_append, IH. reflexivity.
Qed.

Lemma has_char_rev :
  forall c s, Str.has_char c (Str.rev s) = Str.has_char c s.
Proof.
  intros c s. induction s as [|x s IH]; [reflexivity|].
  rewrite rev_cons, has_char_append, IH. cbn.
  rewrite orb_false_r. apply orb_comm.
Qed.

Lemma lstrip_plain : forall s, plain s -> Str.lstrip s = s.
Proof.
  intros [|c s] H; [reflexivity|].
  cbn. destruct (H c) as [Hs _]; [cbn; rewrite Ascii.eqb_refl; reflexivity|].
  rewrite Hs. reflexivity.
Qed.

Lemma plain_rev : forall s, plain s -> plain (Str.rev s).
Proof.
  intros s H c Hc. apply H. rewrite <- has_char_rev. exact Hc.
Qed.

Lemma strip_plain : forall s, plain s -> Str.strip s = s.
Proof.
  intros s H. unfold Str.strip.
  rewrite (lstrip_plain s H), (lstrip_plain _ (plain_rev s H)).
  apply rev_involutive.
Qed.

(** The line break that ends the line is stripped. *)
Lemma strip_line : forall s, plain s -> Str.strip (s ++ Str.nl) = s.
Proof.
  intros s H. unfold Str.strip.
  assert (E : Str.lstrip (s ++ Str.nl) = s ++ Str.nl \/ s = "").
  { destruct s as [|c s]; [right; reflexivity|]. left.
    cbn. destruct (H c) as [Hs _];
      [cbn; rewrite Ascii.eqb_refl; reflexivity|].
    rewrite Hs. reflexivity. }
  destruct E as [E| ->]; [|reflexivity].
  rewrite E, rev_append.
  change (Str.rev Str.nl ++ Str.rev s) with (String Chars.lf (Str.rev s)).
  change (Str.lstrip (String Chars.lf (Str.rev s)))
    with (Str.lstrip (Str.rev s)).
  rewrite (lstrip_plain _ (plain_rev s H)). apply rev_involutive.
Qed.

(** After the prefix, the text up to the end of the line is what [int]
    is given. *)
Lemma sentinel_code_field :
  forall field,
    plain field ->
    sentinel_code ("EXIT-CODE:" ++ field ++ Str.nl)
    = match PSRunner.int field with
      | Some n => n
      | None => 1%Z
      end.
Proof.
  intros field H. unfold sentinel_code, Str.split.
  assert (Hsep : Str.has_char ":" (field ++ Str.nl) = false).
  { rewrite has_char_append. cbn [Str.has_char Str.nl].
    destruct (Str.has_char ":" field) eqn:E; [|reflexivity].
    destruct (H ":"%char E) as [_ Hc]. discriminate. }
  change (Str.split_from ":" "" ("EXIT-CODE:" ++ field ++ Str.nl))
    with ("EXIT-CODE" :: Str.split_from ":" "" (field ++ Str.nl)).
  rewrite (split_from_without_separator _ _ _ Hsep).
  change (Str.rev "" ++ field ++ Str.nl) with (field ++ Str.nl).
  rewrite (strip_line field H). reflexivity.
Qed.

(** One digit read by [digits]. *)
Ltac digit_step c k :=
  match goal with
  | |- digits ?a ?b (String c ?s) = _ =>
      change (digits a b (String c s))
        with (digits (10 * a + Z.of_nat k) true s)
  end;
  f_equal; lia.

Lemma digits_of_uint :
  forall d acc after_digit,
    after_digit = true \/ d <> Decimal.Nil ->
    digits (Z.of_nat acc) after_digit (NilEmpty.string_of_uint d)
    = Some (Z.of_nat (Nat.of_uint_acc d acc)).
Proof.
  induction d as [|d IH|d IH|d IH|d IH|d IH|d IH|d IH|d IH|d IH|d IH];
    intros acc after_digit H.
  1: { destruct H as [->|H]; [reflexivity | congruence]. }
  all: cbn [NilEmpty.string_of_uint Nat.of_uint_acc];
    rewrite <- (IH _ true (or_introl eq_refl));
    rewrite Nat.tail_mul_spec.
  - digit_step "0"%char 0.
  - digit_step "1"%char 1.
  - digit_step "2"%char 2.
  - digit_step "3"%char 3.
  - digit_step "4"%char 4.
  - digit_step "5"%char 5.
  - digit_step "6"%char 6.
  - digit_step "7"%char 7.
  - digit_step "8"%char 8.
  - digit_step "9"%char 9.
Qed.

Lemma to_uint_not_nil : forall n, Nat.to_uint n <> Decimal.Nil.
Proof.
  intro n. rewrite <- (DecimalNat.Unsigned.of_to n) at 1.
  rewrite DecimalNat.Unsigned.to_of. apply DecimalFacts.unorm_nonnil.
Qed.

Lemma digits_decimal :
  forall n, digits 0 false (decimal n) = Some (Z.of_nat n).
Proof.
  intro n. unfold decimal.
  change (digits (Z.of_nat 0) false
            (NilEmpty.string_of_uint (Nat.to_uint n)) = Some (Z.of_nat n)).
  rewrite (digits_of_uint (Nat.to_uint n) 0 false
             (or_intror (to_uint_not_nil n))).
  fold (Nat.of_uint (Nat.to_uint n)).
  rewrite DecimalNat.Unsigned.of_to. reflexivity.
Qed.

Lemma plain_cons :
  forall c s,
    Chars.is_space c = false -> Ascii.eqb c ":" = false -> plain s ->
    plain (String c s).
Proof.
  intros c s Hs Hc H x Hx. cbn in Hx. apply orb_true_iff in Hx.
  destruct Hx as [Hx|Hx].
  - apply Ascii.eqb_eq in Hx. subst x. split; assumption.
  - apply H. exact Hx.
Qed.

Lemma plain_digits : forall d, plain (NilEmpty.string_of_uint d).
Proof.
  induction d; cbn [NilEmpty.string_of_uint];
    try (apply plain_cons; [reflexivity | reflexivity | assumption]).
  intros c Hc. discriminate.
Qed.

Lemma digit_is_plain :
  forall c,
    Chars.between 48 57 (Chars.code c) = true ->
    Chars.is_space c = false /\ Ascii.eqb c ":" = false.
Proof.
  intros c H.
  destruct c as [[] [] [] [] [] [] [] []]; cbv in H; try discriminate H;
    split; reflexivity.
Qed.

Lemma all_digits_plain : forall s, all_digits s = true -> plain s.
Proof.
  induction s as [|c s IH]; intro H.
  - intros x Hx. discriminate.
  - cbn [all_digits] in H. apply andb_true_iff in H. destruct H as [Hc Hs].
    destruct (digit_is_plain c Hc) as [H1 H2].
    apply plain_cons; [exact H1 | exact H2 | apply IH, Hs].
Qed.

Lemma all_digits_count :
  forall s, all_digits s = true -> digit_count s = String.length s.
Proof.
  induction s as [|c s IH]; intro H; [reflexivity|].
  cbn [all_digits] in H. apply andb_true_iff in H. destruct H as [Hc Hs].
  cbn [digit_count String.length]. rewrite Hc, (IH Hs). reflexivity.
Qed.

Lemma all_digits_uint : forall d, all_digits (NilEmpty.string_of_uint d) = true.
Proof.
  induction d; cbn [NilEmpty.string_of_uint all_digits];
    try rewrite IHd; reflexivity.
Qed.

Lemma int_decimal :
  forall n,
    String.length (decimal n) <= int_max_str_digits ->
    PSRunner.int (decimal n) = Some (Z.of_nat n).
Proof.
  intros n Hlen. unfold PSRunner.int. cbv zeta. unfold decimal in *.
  rewrite (strip_plain _ (plain_digits (Nat.to_uint n))).
  rewrite (all_digits_count _ (all_digits_uint (Nat.to_uint n))).
  apply Nat.ltb_ge in Hlen. rewrite Hlen.
  pose proof (digits_decimal n) as H. unfold decimal in *.
  pose proof (to_uint_not_nil n) as Hnil.
  destruct (Nat.to_uint n); [congruence|..]; exact H.
Qed.

Lemma int_minus_decimal :
  forall n,
    String.length (decimal n) <= int_max_str_digits ->
    PSRunner.int ("-" ++ decimal n) = Some (- Z.of_nat n)%Z.
Proof.
  intros n Hlen. unfold PSRunner.int. cbv zeta.
  rewrite strip_plain.
  - cbn [append]. change (digit_count (String "-" (decimal n)))
      with (digit_count (decimal n)).
    unfold decimal at 1.
    rewrite (all_digits_count _ (all_digits_uint (Nat.to_uint n))).
    apply Nat.ltb_ge in Hlen. unfold decimal in Hlen. rewrite Hlen.
    rewrite digits_decimal. reflexivity.
  - apply plain_cons; [reflexivity | reflexivity | apply plain_digits].
Qed.

(** Beyond the limit [int] raises, whatever the digits are. *)
Lemma int_beyond_the_limit :
  forall ds,
    all_digits ds = true ->
    int_max_str_digits < String.length ds ->
    PSRunner.int ds = None.
Proof.
  intros ds Hd Hlen. unfold PSRunner.int. cbv zeta.
  rewrite (strip_plain _ (all_digits_plain _ Hd)).
  rewrite (all_digits_count _ Hd).
  apply Nat.ltb_lt in Hlen. rewrite Hlen. reflexivity.
Qed.

(** X13.  The exit code written on the sentinel line is read back as long as
    its decimal text has no more digits than [int] accepts (4300): a line
    [EXIT-CODE:] followed by that text gives the number, with a minus sign
    its opposite.  A text of more digits gives 1, like any other text that
    [int] rejects. *)
Theorem sentinel_code_reads_the_exit_code_back :
  forall n,
    String.length (decimal n) <= int_max_str_digits ->
    sentinel_code ("EXIT-CODE:" ++ decimal n ++ Str.nl) = Z.of_nat n /\
    sentinel_code ("EXIT-CODE:" ++ ("-" ++ decimal n) ++ Str.nl)
    = (- Z.of_nat n)%Z /\
    (forall ds,
        all_digits ds = true ->
        int_max_str_digits < String.length ds ->
        sentinel_code ("EXIT-CODE:" ++ ds ++ Str.nl) = 1%Z) /\
    (forall field,
        plain field -> PSRunner.int field = None ->
        sentinel_code ("EXIT-CODE:" ++ field ++ Str.nl) = 1%Z).
Proof.
  intros n Hlen. split; [|split; [|split]].
  - rewrite (sentinel_code_field (decimal n) (plain_digits (Nat.to_uint n))).
    rewrite (int_decimal n Hlen). reflexivity.
  - rewrite sentinel_code_field.
    + rewrite (int_minus_decimal n Hlen). reflexivity.
    + apply plain_cons; [reflexivity | reflexivity | apply plain_digits].
  - intros ds Hd Hover.
    rewrite (sentinel_code_field _ (all_digits_plain _ Hd)).
    rewrite (int_beyond_the_limit ds Hd Hover). reflexivity.
  - intros field Hp Hnone. rewrite (sentinel_code_field _ Hp), Hnone.
    reflexivity.
Qed.

Lemma sentinel_code_reads_124_back :
  sentinel_code ("EXIT-CODE:" ++ decimal 124 ++ Str.nl) = Z.of_nat 124 /\
  sentinel_code ("EXIT-CODE:" ++ ("-" ++ decimal 124) ++ Str.nl)
  = (- Z.of_nat 124)%Z /\
  (forall ds,
      all_digits ds = true ->
      int_max_str_digits < String.length ds ->
      sentinel_code ("EXIT-CODE:" ++ ds ++ Str.nl) = 1%Z) /\
  (forall field,
      plain field -> PSRunner.int field = None ->
      sentinel_code ("EXIT-CODE:" ++ field ++ Str.nl) = 1%Z).
Proof.
  apply (sentinel_code_reads_the_exit_code_back 124).
  apply Nat.leb_le. vm_compute. reflexivity.
Defined.

(** A sentinel line with 4301 digits: the code is 1, not the number. *)
Example sentinel_code_of_4301_digits :
  sentinel_code ("EXIT-CODE:" ++ nines 4301 ++ Str.nl) = 1%Z /\
  sentinel_code ("EXIT-CODE:" ++ nines 4300 ++ Str.nl) <> 1%Z.
Proof.
  split; [vm_compute; reflexivity|].
  vm_compute. discriminate.
Qed.

(** ** [run]: what every path does *)

(** Ends a case of [run] that returns one of its own error results. *)
Ltac error_case :=
  first [ left; reflexivity
        | right; left; reflexivity
        | right; right; left; eexists; reflexivity ].

(** X15.  If the health check raises no [Exception], [run] raises none
    either: whatever it returns is one of its three error results, with exit
    code 1, no output and the message of the rate limit, of the health check
    or of the failed execution (which quotes the first exception), or it is
    a result that [_execute_command] returned for the command. *)
Theorem run_reports_exceptions_as_results :
  forall (session : Type)
         (check_rate : session -> bool * session)
         (health_check : session -> outcome bool * session)
         (execute : string -> session -> outcome (Z * string * string) * session)
         (sync_working_directory : session -> outcome unit * session)
         (start_process : session -> outcome unit * session)
         (cmd : string) (s0 : session) (log : list call),
    (forall s e s', health_check s = (Raises e, s') -> is_Exception e = false) ->
    match fst (PSRunner.run session check_rate health_check execute
                 sync_working_directory start_process cmd (s0, log)) with
    | Returns result =>
        result = (1%Z, "", "ERROR: Command rate limit exceeded" ++ Str.nl) \/
        result = (1%Z, "", "ERROR: PowerShell process unhealthy" ++ Str.nl) \/
        (exists e,
            result = (1%Z, "",
                      "ERROR: Command execution failed: " ++ str_exn e ++
                      Str.nl)) \/
        (exists s s', execute cmd s = (Returns result, s'))
    | Raises e => is_Exception e = false
    | Hangs => True
    end.
Proof.
  intros session check_rate health_check execute sync_working_directory
         start_process cmd s0 log Hhealth.
  unfold PSRunner.run, and_then, except_Exception, perform, ret, error_result.
  cbn [fst snd].
  destruct (check_rate s0) as [[|] s1]; cbn [negb fst snd]; [|error_case].
  destruct (health_check s1) as [[[|]|e|] s2] eqn:Hh; cbn [negb fst snd];
    [| error_case | apply (Hhealth _ _ _ Hh) | exact I].
  destruct (execute cmd s2) as [[result|e|] s3] eqn:He; cbn [fst snd].
  - destruct (sync_working_directory s3) as [[[]|e|] s4]; cbn [fst snd].
    + right. right. right. exists s2, s3. exact He.
    + destruct (is_Exception e) eqn:E; [|exact E].
      destruct (start_process s4) as [[[]|e'|] s5]; cbn [fst snd].
      * destruct (execute cmd s5) as [[result'|e'|] s6] eqn:He';
          cbn [fst snd].
        -- right. right. right. exists s5, s6. exact He'.
        -- destruct (is_Exception e') eqn:E'; cbn [fst];
             [error_case | exact E'].
        -- exact I.
      * destruct (is_Exception e') eqn:E'; cbn [fst];
          [error_case | exact E'].
      * exact I.
    + exact I.
  - destruct (is_Exception e) eqn:E; [|exact E].
    destruct (start_process s3) as [[[]|e'|] s4]; cbn [fst snd].
    + destruct (execute cmd s4) as [[result'|e'|] s5] eqn:He';
        cbn [fst snd].
      * right. right. right. exists s4, s5. exact He'.
      * destruct (is_Exception e') eqn:E'; cbn [fst];
          [error_case | exact E'].
      * exact I.
    + destruct (is_Exception e') eqn:E'; cbn [fst];
        [error_case | exact E'].
    + exact I.
  - exact I.
Qed.

Lemma run_reports_a_broken_pipe_as_a_result :
  match fst (PSRunner.run nat (fun s => (true, s)) (fun s => (Returns true, s))
               broken_pipe (fun s => (Returns tt, s))
               (fun s => (Returns tt, s)) "Get-Date" (0, [])) with
  | Returns result =>
      result = (1%Z, "", "ERROR: Command rate limit exceeded" ++ Str.nl) \/
      result = (1%Z, "", "ERROR: PowerShell process unhealthy" ++ Str.nl) \/
      (exists e,
          result = (1%Z, "",
                    "ERROR: Command execution failed: " ++ str_exn e ++
                    Str.nl)) \/
      (exists s s', broken_pipe "Get-Date" s = (Returns result, s'))
  | Raises e => is_Exception e = false
  | Hangs => True
  end.
Proof.
  apply (run_reports_exceptions_as_results nat (fun s => (true, s))
           (fun s => (Returns true, s)) broken_pipe
           (fun s => (Returns tt, s)) (fun s => (Returns tt, s))
           "Get-Date" 0 []).
  intros s e s' H. discriminate H.
Defined.

(** ** The session manager: locating and starting the shell *)

Import Supervision.

Lemma locate_loop_found :
  forall which l cand,
    locate_loop which l = Ok cand <->
    exists before after,
      l = (before ++ cand :: after)%list /\ which cand = true /\
      forall c, In c before -> which c = false.
Proof.
  intros which l cand. induction l as [|x l IH].
  - split; [discriminate|]. intros (before & after & E & _).
    destruct before; discriminate.
  - cbn [locate_loop]. destruct (which x) eqn:Hx.
    + split.
      * intro H. injection H as <-. exists [], l.
        repeat split; [exact Hx | intros c []].
      * intros (before & after & E & Hc & Hb).
        destruct before as [|b before].
        -- injection E as -> _. reflexivity.
        -- injection E as <- _.
           rewrite (Hb x (or_introl eq_refl)) in Hx. discriminate.
    + rewrite IH. split.
      * intros (before & after & -> & Hc & Hb). exists (x :: before), after.
        repeat split; [exact Hc|]. intros c [<-|Hin]; [exact Hx | apply Hb, Hin].
      * intros (before & after & E & Hc & Hb).
        destruct before as [|b before].
        -- injection E as -> _. congruence.
        -- injection E as <- ->. exists before, after.
           repeat split; [exact Hc|]. intros c Hin. apply Hb. right. exact Hin.
Qed.

Lemma locate_loop_not_found :
  forall which l,
    locate_loop which l = Raise not_found <->
    forall c, In c l -> which c = false.
Proof.
  intros which l. induction l as [|x l IH].
  - split; [intros _ c [] | reflexivity].
  - cbn [locate_loop]. destruct (which x) eqn:Hx.
    + split; [discriminate|]. intro H.
      rewrite (H x (or_introl eq_refl)) in Hx. discriminate.
    + rewrite IH. split.
      * intros H c [<-|Hin]; [exact Hx | apply H, Hin].
      * intros H c Hin. apply H. right. exact Hin.
Qed.

(** X16.  [_locate_ps] returns the first of its four candidates that
    [shutil.which] resolves, in the order [pwsh], [powershell.exe], the
    Windows PowerShell path, the PowerShell 7 path; it raises its
    [RuntimeError] exactly when none of them resolves. *)
Theorem locate_ps_returns_the_first_candidate_found :
  forall which,
    (forall cand,
        _locate_ps which = Ok cand <->
        exists before after,
          candidates = (before ++ cand :: after)%list /\
          which cand = true /\
          forall c, In c before -> which c = false) /\
    (_locate_ps which = Raise not_found <->
     forall c, In c candidates -> which c = false).
Proof.
  intro which. split.
  - intro cand. apply locate_loop_found.
  - apply locate_loop_not_found.
Qed.

(** X17.  [_start_process] returns exactly when the old process, if one is
    running, was stopped, a candidate was located, the child was spawned and
    the first line it wrote holds [PS-READY]; the spawned child is then
    [self.proc].  When the first line lacks the marker the call raises a
    [RuntimeError] that quotes the line, and [self.proc] is the child that
    failed to start all the same. *)
Theorem start_process_requires_the_ready_marker :
  forall which popen stop proc,
    (forall proc',
        (_start_process which popen stop proc = (Returns tt, proc')) <->
        (forall old, proc = Some old -> available old = true ->
                     stop old = Ok tt) /\
        exists exe child wait ready_line,
          _locate_ps which = Ok exe /\
          popen exe = Ok child /\
          stdout_readline child 0 = Reads wait ready_line /\
          Str.contains "PS-READY" ready_line = true /\
          proc' = Some child) /\
    (forall exe child wait line,
        (forall old, proc = Some old -> available old = true ->
                     stop old = Ok tt) ->
        _locate_ps which = Ok exe ->
        popen exe = Ok child ->
        stdout_readline child 0 = Reads wait line ->
        Str.contains "PS-READY" line = false ->
        _start_process which popen stop proc
        = (Raises (RuntimeError
                     ("PowerShell initialization error: " ++
                      "PowerShell startup failed: " ++ line)),
           Some child)).
Proof.
  intros which popen stop proc.
  assert (Hstop :
            (forall old, proc = Some old -> available old = true ->
                         stop old = Ok tt) ->
            match proc with
            | Some old => if available old then stop old else Ok tt
            | None => Ok tt
            end = Ok tt).
  { intro H. destruct proc as [old|]; [|reflexivity].
    destruct (available old) eqn:Ha; [|reflexivity].
    apply (H old eq_refl Ha). }
  split.
  - intro proc'. split.
    + intro H. unfold _start_process in H. split.
      * intros old -> Ha. rewrite Ha in H.
        destruct (stop old) as [[]|e]; [reflexivity | discriminate].
      * destruct (match proc with
                  | Some old => if available old then stop old else Ok tt
                  | None => Ok tt
                  end); [|discriminate].
        destruct (_locate_ps which) as [exe|e] eqn:Hl; [|discriminate].
        destruct (popen exe) as [child|e] eqn:Hp; [|discriminate].
        destruct (stdout_readline child 0) as [wait line|e|] eqn:Hr.
        -- destruct (Str.contains "PS-READY" line) eqn:Hc; [|discriminate].
           injection H as <-. exists exe, child, wait, line.
           repeat split; assumption.
        -- destruct (is_Exception e); discriminate.
        -- discriminate.
    + intros (Hs & exe & child & wait & line & Hl & Hp & Hr & Hc & ->).
      unfold _start_process. rewrite (Hstop Hs), Hl, Hp, Hr, Hc. reflexivity.
  - intros exe child wait line Hs Hl Hp Hr Hc.
    unfold _start_process. rewrite (Hstop Hs), Hl, Hp, Hr, Hc. reflexivity.
Qed.

Example start_process_with_a_ready_child :
  _start_process which_powershell_exe (fun _ => Ok ready_child)
    (fun _ => Ok tt) None
  = (Returns tt, Some ready_child).
Proof. reflexivity. Qed.

(** ** The session manager: the health check and the working directory *)

(** X18.  Within [PROCESS_HEALTH_CHECK_INTERVAL] seconds of the last check,
    [_health_check] answers [True] at once: it looks at nothing, calls
    nothing and leaves [_last_health_check] as it was, whether or not the
    process is running. *)
Theorem health_check_trusts_a_recent_check :
  forall (session : Type) (alive : session -> bool)
         (start_process : session -> outcome unit * session)
         (execute : string -> session -> outcome (Z * string * string) * session)
         (now last : Q) (w : world session),
    (now - last < PROCESS_HEALTH_CHECK_INTERVAL)%Q ->
    _health_check session alive start_process execute now last w
    = (Returns true, w) /\
    last_health_check_after now last = last.
Proof.
  intros session alive start_process execute now last w H.
  unfold _health_check, last_health_check_after.
  rewrite (Qltb_true _ _ H). split; reflexivity.
Qed.

Lemma health_check_trusts_a_dead_process :
  _health_check bool (fun running => running) dead_session_start probe_answers
    100%Q 80%Q (false, [])
  = (Returns true, (false, [])) /\
  last_health_check_after 100%Q 80%Q = 80%Q.
Proof.
  apply (health_check_trusts_a_recent_check
           bool (fun running => running) dead_session_start probe_answers
           100%Q 80%Q (false, [])).
  reflexivity.
Defined.

(** X19.  [_health_check] raises no [Exception]: a failed restart and a
    failed probe are both turned into the answer [False].  It makes at most
    one call, a restart or the probe [Write-Host 'health-check'].  And once
    the interval has passed it answers [True] only if the process was not
    running and the restart returned, or the process was running and the
    probe returned exit code 0 with [health-check] in its output. *)
Theorem health_check_answers_instead_of_raising :
  forall (session : Type) (alive : session -> bool)
         (start_process : session -> outcome unit * session)
         (execute : string -> session -> outcome (Z * string * string) * session)
         (now last : Q) (w : world session),
    (forall e,
        fst (_health_check session alive start_process execute now last w)
        = Raises e -> is_Exception e = false) /\
    (snd (snd (_health_check session alive start_process execute now last w))
     = snd w \/
     snd (snd (_health_check session alive start_process execute now last w))
     = (snd w ++ [StartProcess])%list \/
     snd (snd (_health_check session alive start_process execute now last w))
     = (snd w ++ [ExecuteCommand health_probe])%list) /\
    (fst (_health_check session alive start_process execute now last w)
     = Returns true ->
     (now - last < PROCESS_HEALTH_CHECK_INTERVAL)%Q \/
     (alive (fst w) = false /\ fst (start_process (fst w)) = Returns tt) \/
     (alive (fst w) = true /\
      exists out err,
        fst (execute health_probe (fst w)) = Returns (0%Z, out, err) /\
        Str.contains "health-check" out = true)).
Proof.
  intros session alive start_process execute now last w.
  unfold _health_check.
  destruct (Qltb (now - last) PROCESS_HEALTH_CHECK_INTERVAL) eqn:Hq.
  - cbn [ret fst snd]. repeat split.
    + intros e H. discriminate.
    + left. reflexivity.
    + intros _. left. unfold Qltb in Hq.
      apply negb_true_iff in Hq.
      apply Qnot_le_lt. intro Hle. apply Qle_bool_iff in Hle. congruence.
  - unfold except_Exception, and_then, perform, ret.
    destruct (alive (fst w)) eqn:Ha; cbn [negb].
    + destruct (execute health_probe (fst w)) as [[[[rc out] err]|e|] s'] eqn:He;
        cbn [fst snd].
      * repeat split.
        -- intros e H. discriminate.
        -- right. right. reflexivity.
        -- intro H. right. right. split; [reflexivity|].
           injection H as H. apply andb_true_iff in H. destruct H as [Hrc Hc].
           apply Z.eqb_eq in Hrc. subst rc. exists out, err.
           split; [reflexivity | exact Hc].
      * destruct (is_Exception e) eqn:E; cbn [fst snd]; repeat split;
          try (intros e' H; first [discriminate | injection H as <-; exact E]);
          try (right; right; reflexivity);
          intro H; discriminate.
      * repeat split; try (intros e H; discriminate);
          try (right; right; reflexivity); intro H; discriminate.
    + destruct (start_process (fst w)) as [[[]|e|] s'] eqn:Hs; cbn [fst snd].
      * repeat split.
        -- intros e H. discriminate.
        -- right. left. reflexivity.
        -- intros _. right. left. split; reflexivity.
      * destruct (is_Exception e) eqn:E; cbn [fst snd]; repeat split;
          try (intros e' H; first [discriminate | injection H as <-; exact E]);
          try (right; left; reflexivity);
          intro H; discriminate.
      * repeat split; try (intros e H; discriminate);
          try (right; left; reflexivity); intro H; discriminate.
Qed.

(** X20.  [_sync_working_directory] asks the session for its location with
    one command and raises no [Exception], whatever the command does.  The
    cached directory changes only to the stripped output of a query that
    returned exit code 0, when that text is not empty and names an existing
    path; in every other case it stays as it was. *)
Theorem sync_working_directory_adopts_existing_paths_only :
  forall (session : Type)
         (execute : string -> session -> outcome (Z * string * string) * session)
         (path_exists : string -> bool) (path_str : string -> string)
         (cwd : string) (w : world session),
    (forall e,
        fst (_sync_working_directory session execute path_exists path_str cwd w)
        = Raises e -> is_Exception e = false) /\
    snd (snd (_sync_working_directory session execute path_exists path_str
                cwd w))
    = (snd w ++ [ExecuteCommand location_query])%list /\
    (forall cwd',
        fst (_sync_working_directory session execute path_exists path_str cwd w)
        = Returns cwd' ->
        cwd' = cwd \/
        exists out err,
          fst (execute location_query (fst w)) = Returns (0%Z, out, err) /\
          Str.strip out <> "" /\
          path_exists (Str.strip out) = true /\
          cwd' = path_str (Str.strip out)).
Proof.
  intros session execute path_exists path_str cwd w.
  unfold _sync_working_directory, except_Exception, and_then, perform, ret.
  destruct (execute location_query (fst w)) as [[[[rc out] err]|e|] s'] eqn:He;
    cbn [fst snd].
  - destruct (rc =? 0)%Z eqn:Hrc.
    + apply Z.eqb_eq in Hrc. subst rc. cbv zeta.
      destruct (String.eqb (Str.strip out) "") eqn:Hempty; cbn [negb andb].
      * cbn [fst snd]. repeat split.
        -- intros e H. discriminate.
        -- intros cwd' H. injection H as <-. left. reflexivity.
      * destruct (path_exists (Str.strip out)) eqn:Hex; cbn [fst snd];
          repeat split; try (intros e H; discriminate).
        -- intros cwd' H. injection H as <-. right. exists out, err.
           repeat split; [|exact Hex].
           intro Heq. rewrite Heq in Hempty. discriminate.
        -- intros cwd' H. injection H as <-. left. reflexivity.
    + cbn [fst snd]. repeat split.
      * intros e H. discriminate.
      * intros cwd' H. injection H as <-. left. reflexivity.
  - destruct (is_Exception e) eqn:E; cbn [fst snd]; repeat split.
    + intros e' H. discriminate.
    + intros cwd' H. injection H as <-. left. reflexivity.
    + intros e' H. injection H as <-. exact E.
    + intros cwd' H. discriminate.
  - repeat split.
    + intros e H. discriminate.
    + intros cwd' H. discriminate.
Qed.

Example sync_working_directory_strips_the_answer :
  fst (_sync_working_directory bool probe_answers (fun _ => true) (fun p => p)
         "/home/dev" (true, []))
  = Returns "C:\Users\dev".
Proof. reflexivity. Qed.

(** ** [run] in the session: every start and every execution *)

(** Takes the next case distinction of a run apart. *)
Ltac split_case :=
  match goal with
  | |- context [match ?x with _ => _ end] =>
      lazymatch x with
      | context [match _ with _ => _ end] => fail
      | _ => destruct x eqn:?
      end
  end.

(** Ends a case: the calls added to the two records are read off. *)
Ltac session_case :=
  cbn [fst snd]; repeat rewrite <- app_assoc; cbn [app];
  eexists; eexists;
  split; [first [reflexivity | symmetry; apply app_nil_r]|];
  split; [reflexivity|];
  cbn [count_calls filter is_execute is_start length];
  repeat split; try lia; try congruence;
  match goal with
  | H : negb ?b = false |- Returns ?b = Returns true =>
      apply negb_false_iff in H; rewrite H; reflexivity
  end.

(** X14.  One call of [run], with [_health_check] and
    [_sync_working_directory] as the class has them: [run] itself checks
    the rate limit first, calls [_execute_command] at most twice and
    [_start_process] at most once; counting also what the health check and
    the directory sync do, [_start_process] is called at most twice (the
    health check restarts a dead process, the retry handler restarts again)
    and [_execute_command] at most three times, four calls in all.  When the
    rate limit refuses the call, nothing is started or executed; and [run]
    itself executes the command only if the rate limit let the call in and
    the health check returned [True]. *)
Theorem run_in_session_calls_are_bounded :
  forall (session : Type)
         (check_rate : session -> bool * session)
         (alive : session -> bool)
         (start_process : session -> outcome unit * session)
         (execute : string -> session -> outcome (Z * string * string) * session)
         (path_exists : string -> bool) (path_str : string -> string)
         (now last : Q) (cwd cmd : string)
         (s0 : session) (record own : list call),
  exists calls own_calls,
    snd (fst (snd (run_in_session session check_rate alive start_process
                     execute path_exists path_str now last cwd cmd
                     ((s0, record), own))))
    = (record ++ calls)%list /\
    snd (snd (run_in_session session check_rate alive start_process
                execute path_exists path_str now last cwd cmd
                ((s0, record), own)))
    = (own ++ CheckRateLimit :: own_calls)%list /\
    count_calls is_start own_calls <= 1 /\
    count_calls is_execute own_calls <= 2 /\
    count_calls is_start calls <= 2 /\
    count_calls is_execute calls <= 3 /\
    count_calls is_start calls + count_calls is_execute calls <= 4 /\
    (fst (check_rate s0) = false -> calls = []) /\
    (0 < count_calls is_execute own_calls ->
     fst (check_rate s0) = true /\
     fst (_health_check session alive start_process execute now last
            (snd (check_rate s0), record)) = Returns true).
Proof.
  intros.
  unfold run_in_session, PSRunner.run, _health_check, _sync_working_directory,
    and_then, except_Exception, perform, ret.
  cbn [fst snd].
  destruct (check_rate s0) as [[|] s1]; cbn [fst snd negb]; [|session_case].
  repeat (split_case; cbn [fst snd negb andb] in *; subst).
  all: session_case.
Qed.

(** The bounds are reached: a process found dead is started by the health
    check and again by the retry handler; a process that answers executes
    the probe, the command and the location query. *)
Example run_in_session_starts_twice :
  snd (fst (snd (run_in_session nat (fun s => (true, s)) (fun _ => false)
                   (fun s => (Returns tt, s)) broken_pipe
                   (fun _ => true) (fun p => p)
                   100%Q 0%Q "/home/dev" "Get-Date" ((0, []), []))))
  = [StartProcess; ExecuteCommand "Get-Date";
     StartProcess; ExecuteCommand "Get-Date"] /\
  snd (fst (snd (run_in_session bool (fun s => (true, s)) (fun s => s)
                   (fun s => (Returns tt, s)) answers_health_check
                   (fun _ => true) (fun p => p)
                   100%Q 0%Q "/home/dev" "Get-Date" ((true, []), []))))
  = [ExecuteCommand health_probe; ExecuteCommand "Get-Date";
     ExecuteCommand location_query].
Proof. split; reflexivity. Qed.

(** ** The main flow: what reaches the session *)

Lemma blank_lstrip : forall s, blank s = true -> Str.lstrip s = "".
Proof.
  induction s as [|c s IH]; [reflexivity|].
  cbn [blank Str.lstrip]. intro H. apply andb_true_iff in H.
  destruct H as [Hc Hs]. rewrite Hc. apply IH, Hs.
Qed.

Lemma lstrip_blank : forall s, Str.lstrip s = "" -> blank s = true.
Proof.
  induction s as [|c s IH]; [reflexivity|].
  cbn [blank Str.lstrip]. destruct (Chars.is_space c); [|discriminate].
  exact IH.
Qed.

Lemma rev_empty : forall s, Str.rev s = "" -> s = "".
Proof.
  intros s H. rewrite <- (rev_involutive s), H. reflexivity.
Qed.

Lemma blank_has_char :
  forall s, blank s = true <->
            forall c, Str.has_char c s = true -> Chars.is_space c = true.
Proof.
  induction s as [|x s IH]; cbn [blank Str.has_char].
  - split; [intros _ c H; discriminate | reflexivity].
  - rewrite andb_true_iff, IH. split.
    + intros [Hx Hs] c H. apply orb_true_iff in H. destruct H as [H|H].
      * apply Ascii.eqb_eq in H. subst c. exact Hx.
      * apply Hs, H.
    + intro H. split.
      * apply H. rewrite Ascii.eqb_refl. reflexivity.
      * intros c Hc. apply H. rewrite Hc. apply orb_true_r.
Qed.

Lemma blank_rev : forall s, blank (Str.rev s) = blank s.
Proof.
  intro s. apply eq_true_iff_eq. rewrite !blank_has_char.
  split; intros H c Hc; apply H;
    [rewrite has_char_rev | rewrite <- has_char_rev]; exact Hc.
Qed.

Lemma lstrip_starts_with_text :
  forall s, Str.lstrip s = "" \/ blank (Str.lstrip s) = false.
Proof.
  induction s as [|c s IH]; [left; reflexivity|].
  cbn [Str.lstrip]. destruct (Chars.is_space c) eqn:Hc; [exact IH|].
  right. cbn [blank]. rewrite Hc. reflexivity.
Qed.

Lemma strip_blank : forall s, Str.strip s = "" <-> blank s = true.
Proof.
  intro s. unfold Str.strip. split.
  - intro H. apply rev_empty, lstrip_blank in H. rewrite blank_rev in H.
    destruct (lstrip_starts_with_text s) as [E|E]; [|congruence].
    apply lstrip_blank, E.
  - intro H. rewrite (blank_lstrip s H). reflexivity.
Qed.

Lemma join_empty :
  forall l, l <> [] -> (Str.join " " l = "" <-> l = [""]).
Proof.
  intros [|x [|y l]] Hl; [congruence | |].
  - cbn [Str.join]. split; [intros -> | intro H; injection H as ->];
      reflexivity.
  - split; [|discriminate]. cbn [Str.join].
    destruct x; cbn [append]; discriminate.
Qed.

(** X21.  Whatever the arguments, the input line and the collaborators,
    [main] hands no command to the session and writes nothing on standard
    output: it exits with 0 without a message when there is no command, and
    otherwise with 1 and the message of its last handler, because the log
    line before the validation raises. *)
Theorem main_never_reaches_the_session :
  forall (bashlex : string -> parsed) (wslpath : string -> wslpath_result)
         (shlex_split : string -> res (list string))
         (list2cmdline : list string -> string)
         (runner_run : string -> outcome (Z * string * string))
         (argv : list string) (stdin : string),
    handed (main bashlex wslpath shlex_split list2cmdline runner_run
              argv stdin) = [] /\
    stdout (main bashlex wslpath shlex_split list2cmdline runner_run
              argv stdin) = "" /\
    (main bashlex wslpath shlex_split list2cmdline runner_run argv stdin
     = exit_with 0 "" \/
     main bashlex wslpath shlex_split list2cmdline runner_run argv stdin
     = exit_with 1 (cross_mark ++ " Unexpected error: " ++
                    invalid_group_reference ++ Str.nl)).
Proof.
  intros bashlex wslpath shlex_split list2cmdline runner_run argv stdin.
  destruct (match argv with
            | [] => Str.strip stdin
            | _ => Str.join " " argv
            end) as [|c raw] eqn:Hraw.
  - assert (E : main bashlex wslpath shlex_split list2cmdline runner_run
                  argv stdin = exit_with 0 "").
    { unfold main. rewrite Hraw. reflexivity. }
    rewrite E. repeat split. left. reflexivity.
  - rewrite (main_stops_at_the_log_line bashlex wslpath shlex_split
               list2cmdline runner_run argv stdin c raw Hraw).
    repeat split. right. reflexivity.
Qed.

(** X22.  [main] exits with status 0 exactly when there is no command: no
    argument and an input line of whitespace only (the empty line included),
    or one single, empty argument. *)
Theorem main_exits_with_zero_without_a_command :
  forall (bashlex : string -> parsed) (wslpath : string -> wslpath_result)
         (shlex_split : string -> res (list string))
         (list2cmdline : list string -> string)
         (runner_run : string -> outcome (Z * string * string))
         (argv : list string) (stdin : string),
    status (main bashlex wslpath shlex_split list2cmdline runner_run
              argv stdin) = Some 0%Z <->
    (argv = [] /\ blank stdin = true) \/ argv = [""].
Proof.
  intros bashlex wslpath shlex_split list2cmdline runner_run argv stdin.
  destruct (match argv with
            | [] => Str.strip stdin
            | _ => Str.join " " argv
            end) as [|c raw] eqn:Hraw.
  - assert (E : main bashlex wslpath shlex_split list2cmdline runner_run
                  argv stdin = exit_with 0 "").
    { unfold main. rewrite Hraw. reflexivity. }
    rewrite E. split; [intros _ | reflexivity].
    destruct argv as [|a argv].
    + left. split; [reflexivity | apply strip_blank, Hraw].
    + right. apply join_empty; [discriminate | exact Hraw].
  - rewrite (main_stops_at_the_log_line bashlex wslpath shlex_split
               list2cmdline runner_run argv stdin c raw Hraw).
    split; [discriminate|].
    intros [[-> Hb] | ->].
    + apply strip_blank in Hb. rewrite Hb in Hraw. discriminate.
    + discriminate.
Qed.
